(** * scanner.py: an asynchronous TCP port scanner

    A shallow embedding of [scanner.py] and the properties of its scanning
    engine.  The program is effectful: it prints, resolves names, opens
    connections, reads the keyboard and can be interrupted.  Every effect is
    threaded through an explicit [world]; what the outside decides (the
    resolver's answers, the outcome of a connection attempt, the order in
    which the tasks of a batch complete, the wall clock) is an [Env] of
    oracles the definitions are parameterised by. *)

From Stdlib Require Import ZArith QArith Lia Ascii String.
From stdpp Require Import base list strings gmap pretty sorting.

Open Scope Z_scope.

(** ** The parts of Python the program uses *)

Module Py.

(** The exception classes the program can meet.  The first seven derive
    from [Exception]; the last three derive from [BaseException] only, so
    an [except Exception] clause lets them through. *)
Inductive exn :=
| TimeoutError                (* asyncio.TimeoutError *)
| ConnectionRefusedError
| gaierror (msg : string)     (* socket.gaierror *)
| OSError (msg : string)      (* any other failure of the transport *)
| ValueError (msg : string)
| KeyError
| EOFError
| CancelledError              (* asyncio.CancelledError *)
| KeyboardInterrupt
| SystemExit (code : Z).

Definition is_Exception (e : exn) : bool :=
  match e with
  | CancelledError | KeyboardInterrupt | SystemExit _ => false
  | _ => true
  end.

(** [str(e)] *)
Definition str_exn (e : exn) : string :=
  match e with
  | gaierror msg | OSError msg | ValueError msg => msg
  | SystemExit code => pretty code
  | _ => ""
  end.

#[global] Instance exn_eq_dec : EqDecision exn.
Proof. solve_decision. Defined.

(** What a statement does: it completes with a value or raises. *)
Inductive outcome (A : Type) :=
| Returns (a : A)
| Raises (e : exn).
#[global] Arguments Returns {A} a.
#[global] Arguments Raises {A} e.

(** A [dict]: keys are unique and keep the order of their first insertion;
    assigning to a key that is present replaces its value in place. *)
Definition dict (K V : Type) := list (K * V).

Section Dict.
Context {K V : Type} `{EqDecision K}.

(** [d[k] = v] *)
Fixpoint setitem (k : K) (v : V) (d : dict K V) : dict K V :=
  match d with
  | [] => [(k, v)]
  | (k', v') :: d' =>
      if decide (k' = k) then (k, v) :: d' else (k', v') :: setitem k v d'
  end.

(** [d.get(k)] *)
Fixpoint get_opt (k : K) (d : dict K V) : option V :=
  match d with
  | [] => None
  | (k', v') :: d' => if decide (k' = k) then Some v' else get_opt k d'
  end.

(** [d.get(k, dflt)] *)
Definition get (k : K) (dflt : V) (d : dict K V) : V :=
  default dflt (get_opt k d).

(** [d[k]] *)
Definition getitem (k : K) (d : dict K V) : outcome V :=
  match get_opt k d with
  | Some v => Returns v
  | None => Raises KeyError
  end.

(** [d.keys()], [d.items()] and [len(d)], in insertion order *)
Definition keys (d : dict K V) : list K := d.*1.
Definition items (d : dict K V) : list (K * V) := d.
Definition len (d : dict K V) : Z := Z.of_nat (length d).
End Dict.
#[global] Arguments keys {K V} d : simpl never.
#[global] Arguments len {K V} d : simpl never.

(** [range(start, stop)] *)
Definition range (start stop : Z) : list Z :=
  (λ i : nat, start + Z.of_nat i) <$> seq 0 (Z.to_nat (stop - start)).

(** [range(start, stop, step)]; a zero step is a [ValueError]. *)
Definition range3 (start stop step : Z) : outcome (list Z) :=
  if decide (step = 0) then Raises (ValueError "range() arg 3 must not be zero")
  else
    let n := if decide (0 < step)
             then (stop - start + step - 1) `div` step
             else (start - stop - step - 1) `div` (- step) in
    Returns ((λ i : nat, start + Z.of_nat i * step) <$> seq 0 (Z.to_nat n)).

(** [min(l)] and [max(l)] of a non-empty list *)
Definition min (l : list Z) : outcome Z :=
  match l with
  | [] => Raises (ValueError "min() arg is an empty sequence")
  | x :: l' => Returns (foldl Z.min x l')
  end.

Definition max (l : list Z) : outcome Z :=
  match l with
  | [] => Raises (ValueError "max() arg is an empty sequence")
  | x :: l' => Returns (foldl Z.max x l')
  end.

(** [sorted(l)] on integers *)
Definition sorted (l : list Z) : list Z := merge_sort Z.le l.

(** [s * n], [s.ljust(n)] (the [:<n] of a format field), [s.strip()] and
    [s.lower()].  A character is a code point below 256: the white space
    of [str.strip] there is U+0009 to U+000D, U+001C to U+0020, U+0085 and
    U+00A0, and the letters [str.lower] changes are A to Z, U+00C0 to U+00D6
    and U+00D8 to U+00DE. *)
Fixpoint repeat_str (s : string) (n : nat) : string :=
  match n with
  | O => ""
  | S n' => s +:+ repeat_str s n'
  end.

Definition ljust (n : nat) (s : string) : string :=
  s +:+ repeat_str " " (n - String.length s).

Definition is_space (c : ascii) : bool :=
  let n := nat_of_ascii c in
  ((9 <=? n)%nat && (n <=? 13)%nat) || ((28 <=? n)%nat && (n <=? 32)%nat)
  || (n =? 133)%nat || (n =? 160)%nat.

Fixpoint lstrip (s : string) : string :=
  match s with
  | String c s' => if is_space c then lstrip s' else s
  | EmptyString => EmptyString
  end.

Fixpoint rstrip (s : string) : string :=
  match s with
  | String c s' =>
      match rstrip s' with
      | EmptyString => if is_space c then EmptyString else String c EmptyString
      | t => String c t
      end
  | EmptyString => EmptyString
  end.

Definition strip (s : string) : string := rstrip (lstrip s).

Definition lower_ascii (c : ascii) : ascii :=
  let n := nat_of_ascii c in
  if ((65 <=? n)%nat && (n <=? 90)%nat)
     || ((192 <=? n)%nat && (n <=? 214)%nat)
     || ((216 <=? n)%nat && (n <=? 222)%nat)
  then ascii_of_nat (n + 32) else c.

Fixpoint lower (s : string) : string :=
  match s with
  | String c s' => String (lower_ascii c) (lower s')
  | EmptyString => EmptyString
  end.

(** The newline character of the ["\n"] escapes. *)
Definition nl : string := String (ascii_of_nat 10) EmptyString.

End Py.

Import Py.

(** ** The world outside the program *)

(** One probe, as the network answers it: what awaiting
    [open_connection] within the timeout raises, and, when it raises
    nothing, what [writer.close()] and [writer.wait_closed()] raise. *)
Record attempt := {
  open_connection : option exn;
  writer_close : option exn;
  writer_wait_closed : option exn
}.

(** The oracles.  [ip_address h] tells whether [ipaddress.ip_address(h)]
    accepts [h]; [gethostbyname h] is what [socket.gethostbyname(h)] does:
    it returns the address of [h] or raises, [socket.gaierror] for a name
    without an address, another exception ([UnicodeError], a [ValueError],
    for a name that cannot be encoded); [open_for_writing f] is what
    [open(f, 'w')] raises, if anything; [network h p t] is what a probe of
    port [p] at [h] under the timeout [t] meets; [as_completed tasks] is the
    order in which the tasks of one batch finish; [elapsed] is the text of
    [total_time.total_seconds()] with two decimals.  A timeout is a number
    of seconds. *)
Record Env := {
  ip_address : string → bool;
  gethostbyname : string → outcome string;
  open_for_writing : string → option exn;
  network : string → Z → Q → attempt;
  as_completed : list Z → list Z;
  elapsed : string
}.

(** What the program does to the outside, in the order it does it. *)
Inductive event :=
| CreateTask (port : Z)
| OpenConnection (host : string) (port : Z) (timeout : Q)
| GetHostByName (host : string).

(** What the keyboard delivers to one [input()]: a line, of characters
    below U+0100, or an interrupt. *)
Inductive keyboard :=
| Line (s : string)
| CtrlC.

(** [stdout] holds one string per [print] (and per prompt), [trace] the
    events so far, [fs] the files by name.  [sigint] schedules the interrupts
    that arrive while a scan runs: its head is the number of probes that
    still complete before the next SIGINT. *)
Record world := {
  stdout : list string;
  trace : list event;
  fs : gmap string string;
  sigint : list nat
}.

Definition M (A : Type) : Type := world → world * outcome A.

#[global] Instance M_ret : MRet M := λ A (a : A) w, (w, Returns a).
#[global] Instance M_bind : MBind M := λ A B (k : A → M B) (m : M A) w,
  match m w with
  | (w', Returns a) => k a w'
  | (w', Raises e) => (w', Raises e)
  end.

Definition raise {A} (e : exn) : M A := λ w, (w, Raises e).

(** [try: m except KeyboardInterrupt: h] *)
Definition except_KeyboardInterrupt {A} (m : M A) (h : M A) : M A :=
  λ w, match m w with
       | (w', Raises KeyboardInterrupt) => h w'
       | r => r
       end.

Definition print (s : string) : M unit :=
  λ w, ({| stdout := stdout w ++ [s]; trace := trace w; fs := fs w;
           sigint := sigint w |}, Returns ()).

Definition emit (e : event) : M unit :=
  λ w, ({| stdout := stdout w; trace := trace w ++ [e]; fs := fs w;
           sigint := sigint w |}, Returns ()).

(** [open(filename, 'w')] with the text written before the file is closed. *)
Definition write_file (filename content : string) : M unit :=
  λ w, ({| stdout := stdout w; trace := trace w; fs := <[filename := content]> (fs w);
           sigint := sigint w |}, Returns ()).

(** The event loop delivers a pending SIGINT before it hands over the next
    completed task. *)
Definition check_signals : M unit :=
  λ w, match sigint w with
       | [] => (w, Returns ())
       | O :: rest =>
           ({| stdout := stdout w; trace := trace w; fs := fs w;
               sigint := rest |}, Raises KeyboardInterrupt)
       | S n :: rest =>
           ({| stdout := stdout w; trace := trace w; fs := fs w;
               sigint := n :: rest |}, Returns ())
       end.


(** ** The program *)

Definition MAX_THREADS : Z := 100.

Definition COMMON_PORTS : gmap Z string :=
  list_to_map
    [(20, "FTP Data"); (21, "FTP Control"); (22, "SSH"); (23, "Telnet");
     (25, "SMTP"); (53, "DNS"); (80, "HTTP"); (443, "HTTPS");
     (3306, "MySQL"); (5432, "PostgreSQL"); (27017, "MongoDB")].

(** The value stored for a port: a small [dict] from strings to strings. *)
Definition entry : Type := dict string string.

(** The defaults of the signatures [scan_port(..., timeout=1)] and
    [scan_ports(..., start_from_port=0)]. *)
Definition scan_port_timeout : Q := 1.
Definition scan_ports_start_from_port : Z := 0.

(** The command line after [parse_args]. *)
Record Namespace := {
  host : string;
  start_port : Z;
  end_port : Z;
  output : option string;
  timeout : Q;
  common : bool
}.

(** The defaults of the parser: [-s 1 -e 65535 -t 1.0], no [-o], no
    [--common]. *)
Definition parse_defaults (h : string) : Namespace :=
  {| host := h; start_port := 1; end_port := 65535; output := None;
     timeout := 1; common := false |}.

Section Program.

Variable env : Env.

(** The [except] clauses of [scan_port], tried in order.  An exception
    that is no [Exception] matches neither and propagates. *)
Definition scan_port_except (port : Z) (results : dict Z entry) (e : exn)
  : M (dict Z entry) :=
  match e with
  | TimeoutError | ConnectionRefusedError =>
      mret (setitem port [("status", "closed")] results)
  | _ =>
      if is_Exception e
      then mret (setitem port [("status", "error"); ("error", str_exn e)] results)
      else raise e
  end.

(** [scan_port(host, port, results, timeout)].  [results] is the shared
    dictionary: the function returns it as it leaves it. *)
Definition scan_port (host : string) (port : Z) (results : dict Z entry)
    (timeout : Q) : M (dict Z entry) :=
  emit (OpenConnection host port timeout) ;;
  let a := network env host port timeout in
  match open_connection a with
  | Some e => scan_port_except port results e
  | None =>
      let results :=
        setitem port [("status", "open");
                      ("service", default "Unknown" (COMMON_PORTS !! port))]
                results in
      match writer_close a with
      | Some e => scan_port_except port results e
      | None =>
          match writer_wait_closed a with
          | Some e => scan_port_except port results e
          | None => mret results
          end
      end
  end.

(** Lines 55-57: one task per port of the chunk.  A task is named by its
    port; the body of its coroutine runs when the loop completes it. *)
Fixpoint create_tasks (ports : list Z) : M (list Z) :=
  match ports with
  | [] => mret []
  | p :: ports' =>
      emit (CreateTask p) ;;
      tasks ← create_tasks ports' ;
      mret (p :: tasks)
  end.

(** Lines 61-63: await the tasks in the order they complete.  The bodies
    of the coroutines of one chunk are serialised in that order. *)
Fixpoint await_each (host : string) (completed : list Z)
    (results : dict Z entry) : M (dict Z entry) :=
  match completed with
  | [] => mret results
  | p :: completed' =>
      check_signals ;;
      results ← scan_port host p results scan_port_timeout ;
      await_each host completed' results
  end.

(** Lines 54-64: the body of the loop over chunks.  [tasks] is empty when
    a chunk starts, since the previous one cleared it. *)
Definition scan_chunk (host : string) (end_port chunk_size port : Z)
    (results : dict Z entry) : M (dict Z entry) :=
  let chunk_end := Z.min (port + chunk_size) (end_port + 1) in
  tasks ← create_tasks (range port chunk_end) ;
  await_each host (as_completed env tasks) results.

Fixpoint for_chunks (host : string) (end_port chunk_size : Z)
    (ports : list Z) (results : dict Z entry) : M (dict Z entry) :=
  match ports with
  | [] => mret results
  | port :: ports' =>
      results ← scan_chunk host end_port chunk_size port results ;
      for_chunks host end_port chunk_size ports' results
  end.

(** Lines 47-64 of [scan_ports]: the dictionary the scan fills. *)
Definition scan_range (host : string) (end_port start_from_port : Z)
  : M (dict Z entry) :=
  let results : dict Z entry := [] in
  let chunk_size := Z.min 1000 (end_port - start_from_port + 1) in
  match range3 start_from_port (end_port + 1) chunk_size with
  | Raises e => raise e
  | Returns ports => for_chunks host end_port chunk_size ports results
  end.

(** Lines 72-78: the table of open ports; returns [open_ports]. *)
Fixpoint print_open (ports : list Z) (results : dict Z entry) (open_ports : Z)
  : M Z :=
  match ports with
  | [] => mret open_ports
  | port :: ports' =>
      match getitem port results with
      | Raises e => raise e
      | Returns result =>
          match getitem "status" result with
          | Raises e => raise e
          | Returns status =>
              if decide (status = "open") then
                let service := get "service" "Unknown" result in
                print (ljust 10 (pretty port) +:+ " " +:+ ljust 10 "OPEN"
                       +:+ " " +:+ ljust 20 service) ;;
                print_open ports' results (open_ports + 1)
              else print_open ports' results open_ports
          end
      end
  end.

(** Lines 44-87 of [scan_ports], once the host is an address. *)
Definition scan_resolved (host : string) (start_port end_port start_from_port : Z)
  : M Z :=
  print (nl +:+ "Starting port scan on " +:+ host +:+ " from port "
         +:+ pretty start_port +:+ " to " +:+ pretty end_port +:+ "...") ;;
  results ← scan_range host end_port start_from_port ;
  print (nl +:+ "Scan Results:") ;;
  print (repeat_str "-" 60) ;;
  print (ljust 10 "Port" +:+ " " +:+ ljust 10 "Status" +:+ " " +:+ ljust 20 "Service") ;;
  print (repeat_str "-" 60) ;;
  open_ports ← print_open (sorted (keys results)) results 0 ;
  print (nl +:+ "Scan Summary:") ;;
  print ("Total ports scanned: " +:+ pretty (len results)) ;;
  print ("Open ports found: " +:+ pretty open_ports) ;;
  print ("Scan completed in " +:+ elapsed env +:+ " seconds.") ;;
  mret (len results).

(** [scan_ports(host, start_port, end_port, start_from_port)] *)
Definition scan_ports (host : string) (start_port end_port start_from_port : Z)
  : M Z :=
  if ip_address env host then
    scan_resolved host start_port end_port start_from_port
  else
    emit (GetHostByName host) ;;
    match gethostbyname env host with
    | Returns addr => scan_resolved addr start_port end_port start_from_port
    | Raises (gaierror _) =>
        print ("Could not resolve hostname: " +:+ host) ;; mret 0
    | Raises e => raise e
    end.

(** [save_results(results, filename)]: [open] may raise; when it does
    not, the file is truncated and holds what was written when the block is
    left. *)
Fixpoint write_items (its : list (Z * entry)) (text : string)
  : string * outcome unit :=
  match its with
  | [] => (text, Returns ())
  | (port, data) :: its' =>
      match getitem "status" data with
      | Returns status =>
          write_items its' (text +:+ "Port " +:+ pretty port +:+ ": " +:+ status +:+ nl)
      | Raises e => (text, Raises e)
      end
  end.

Definition save_results (results : dict Z entry) (filename : string) : M unit :=
  match open_for_writing env filename with
  | Some e => raise e
  | None =>
      let '(text, r) := write_items (items results) "" in
      write_file filename text ;;
      match r with
      | Returns _ => mret ()
      | Raises e => raise e
      end
  end.

(** Lines 123-137 of [main]: the prompt after an interrupt.  [typed] is
    what the keyboard delivers to the successive calls of [input]. *)
Fixpoint prompt (args : Namespace) (current_port : Z) (typed : list keyboard)
  : M unit :=
  let question := nl +:+ "Do you want to quit (q) or continue (c)? " in
  let forced : M unit := print (nl +:+ "Forced exit.") ;; raise (SystemExit 1) in
  match typed with
  | [] => print question ;; raise EOFError
  | CtrlC :: _ => print question ;; forced
  | Line s :: typed' =>
      print question ;;
      let user_input := lower (strip s) in
      if decide (user_input = "q") then
        print "Exiting scan." ;; raise (SystemExit 0)
      else if decide (user_input = "c") then
        except_KeyboardInterrupt
          (print "Resuming scan..." ;;
           scan_ports (host args) current_port (end_port args) current_port ;;
           mret ())
          forced
      else
        print "Invalid input, please enter 'q' to quit or 'c' to continue." ;;
        prompt args current_port typed'
  end.

(** [main()], from the parsed arguments on. *)
Definition main (args : Namespace) (typed : list keyboard) : M unit :=
  args ← (if common args then
            let ports_to_scan := sorted (elements (dom COMMON_PORTS)) in
            match Py.min ports_to_scan, Py.max ports_to_scan with
            | Returns lo, Returns hi =>
                mret {| host := host args; start_port := lo; end_port := hi;
                        output := output args; timeout := timeout args;
                        common := common args |}
            | Raises e, _ | _, Raises e => raise e
            end
          else mret args) ;
  if decide (start_port args < 1 ∨ end_port args > 65535) then
    print "Port range must be between 1 and 65535."
  else if decide (start_port args > end_port args) then
    print "Start port must be less than or equal to end port."
  else
    let current_port := start_port args in
    except_KeyboardInterrupt
      (scan_ports (host args) (start_port args) (end_port args)
                  scan_ports_start_from_port ;;
       mret ())
      (print (nl +:+ "Scan interrupted.") ;;
       prompt args current_port typed).

End Program.

(** ** Notions the properties are stated with *)

(** The slice of ports one pass of the loop at line 53 handles, and the
    slices of a whole scan in the order the loop meets them. *)
Definition chunk (end_port chunk_size port : Z) : list Z :=
  range port (Z.min (port + chunk_size) (end_port + 1)).

Definition batches (end_port start_from_port : Z) : list (list Z) :=
  let chunk_size := Z.min 1000 (end_port - start_from_port + 1) in
  match range3 start_from_port (end_port + 1) chunk_size with
  | Returns ports => chunk end_port chunk_size <$> ports
  | Raises _ => []
  end.

(** [ceil(a / b)] for a positive [b] *)
Definition ceil_div (a b : Z) : Z := (a + b - 1) `div` b.

(** The world after more was printed and more was done. *)
Definition log (w : world) (out : list string) (evs : list event) : world :=
  {| stdout := stdout w ++ out; trace := trace w ++ evs; fs := fs w;
     sigint := sigint w |}.

(** The first exception the [try] block of [scan_port] meets, if any. *)
Definition first_exn (a : attempt) : option exn :=
  match open_connection a with
  | Some e => Some e
  | None =>
      match writer_close a with
      | Some e => Some e
      | None => writer_wait_closed a
      end
  end.

(** What closing the connection raises, if anything. *)
Definition close_exn (a : attempt) : option exn :=
  match writer_close a with
  | Some e => Some e
  | None => writer_wait_closed a
  end.

(** The three dictionaries [scan_port] stores under a port. *)
Definition open_entry (port : Z) : entry :=
  [("status", "open"); ("service", default "Unknown" (COMMON_PORTS !! port))].

Definition closed_entry : entry := [("status", "closed")].

Definition error_entry (detail : string) : entry :=
  [("status", "error"); ("error", detail)].

(** What the [except] clauses store for an [Exception], and what a probe
    that raises nothing itself leaves under its port. *)
Definition caught_entry (e : exn) : entry :=
  match e with
  | TimeoutError | ConnectionRefusedError => closed_entry
  | _ => error_entry (str_exn e)
  end.

Definition verdict (a : attempt) (port : Z) : entry :=
  match first_exn a with
  | None => open_entry port
  | Some e => caught_entry e
  end.

(** A probe is contained when what the network raises, if anything, is an
    [Exception]. *)
Definition contained (a : attempt) : bool :=
  match first_exn a with
  | None => true
  | Some e => is_Exception e
  end.

Section Notions.
Variable env : Env.

(** What the probes of a scan of [host] record, port by port, and the
    connection attempts they make. *)
Definition record (host : string) (results : dict Z entry) (p : Z) : dict Z entry :=
  setitem p (verdict (network env host p scan_port_timeout) p) results.

Definition probes (host : string) (ports : list Z) : list event :=
  (λ p, OpenConnection host p scan_port_timeout) <$> ports.

(** The events of one batch: its tasks are created, then its probes run
    in the order they complete. *)
Definition segment (host : string) (batch : list Z) : list event :=
  (CreateTask <$> batch) ++ probes host (as_completed env batch).

(** The ports of a scan in the order their probes complete, and the
    dictionary a completed scan holds. *)
Definition completion_order (end_port start_from_port : Z) : list Z :=
  concat (as_completed env <$> batches end_port start_from_port).

Definition scanned (host : string) (end_port start_from_port : Z) : dict Z entry :=
  foldl (record host) [] (completion_order end_port start_from_port).

End Notions.

(** From [w] to [w'] the files are left alone, the output was extended and
    the events that happened all satisfy [P]. *)
Definition grows (P : event → Prop) (w w' : world) : Prop :=
  fs w' = fs w ∧
  ∃ out evs, stdout w' = stdout w ++ out ∧ trace w' = trace w ++ evs ∧ Forall P evs.

(** A computation that only ever does that, from whatever world it starts
    and whether it returns or raises. *)
Definition keeps {A} (P : event → Prop) (m : M A) : Prop :=
  ∀ w, grows P w (m w).1.

(** The events of a scan of the address [host]: tasks, and connection
    attempts to that address under the default timeout of [scan_port]. *)
Definition scan_event (host : string) (ev : event) : Prop :=
  match ev with
  | CreateTask _ => True
  | OpenConnection h _ t => h = host ∧ t = scan_port_timeout
  | GetHostByName _ => False
  end.

(** The events of a whole run: whatever the host, a connection attempt is
    made under the default timeout of [scan_port]. *)
Definition default_timeout_event (ev : event) : Prop :=
  match ev with
  | OpenConnection _ _ t => t = scan_port_timeout
  | _ => True
  end.

(** An environment in which every task of a batch completes, once each, and
    no probe lets an exception through. *)
Record well_behaved (env : Env) : Prop := {
  completes_each : ∀ tasks, as_completed env tasks ≡ₚ tasks;
  probes_contained : ∀ h p t, contained (network env h p t) = true
}.

(** The ports tasks were created for and the ports connected to, in order. *)
Definition tasks_created (evs : list event) : list Z :=
  omap (λ ev, match ev with CreateTask p => Some p | _ => None end) evs.

Definition probed (evs : list event) : list Z :=
  omap (λ ev, match ev with OpenConnection _ p _ => Some p | _ => None end) evs.

(** The contract C4 states for one probe: it returns, and under its port
    stands [open] with the service name after a successful connection,
    [closed] after a timeout or a refusal, [error] with the text of the
    exception after any other failure. *)
Definition probe_contract (env : Env) (host : string) (port : Z)
    (results : dict Z entry) (t : Q) (w : world) : Prop :=
  ∃ w' results',
    scan_port env host port results t w = (w', Returns results') ∧
    get_opt port results'
    = Some match open_connection (network env host port t) with
           | None => open_entry port
           | Some TimeoutError | Some ConnectionRefusedError => closed_entry
           | Some e => error_entry (str_exn e)
           end.

(** The behaviour C10 states: when the connection succeeded and closing it
    raised, the probe leaves [error] under its port. *)
Definition close_failure_is_error (env : Env) (host : string) (port : Z)
    (results : dict Z entry) (t : Q) (w : world) : Prop :=
  open_connection (network env host port t) = None →
  is_Some (close_exn (network env host port t)) →
  ∃ w' results' detail,
    scan_port env host port results t w = (w', Returns results') ∧
    get_opt port results' = Some (error_entry detail).



(** The arguments C6 is about. *)
Definition out_of_range (args : Namespace) : Prop :=
  start_port args < 1 ∨ end_port args > 65535 ∨ start_port args > end_port args.

(** The run prints one of the two validation messages and does nothing
    else: no task, no connection attempt, no resolution. *)
Definition rejected (env : Env) (args : Namespace) (typed : list keyboard)
    (w : world) : Prop :=
  ∃ msg,
    main env args typed w = (log w [msg] [], Returns ()) ∧
    (msg = "Port range must be between 1 and 65535."
     ∨ msg = "Start port must be less than or equal to end port.").

(** ** Notions of the further properties *)

(** A computation whose value, when it returns, satisfies [Post] and whose
    exception, when it raises, satisfies [Exc]. *)
Definition yields {A} (Post : A → Prop) (Exc : exn → Prop) (m : M A) : Prop :=
  ∀ w, match (m w).2 with
       | Returns a => Post a
       | Raises e => Exc e
       end.

(** An entry as [scan_port] writes them: it has a status, one of the three. *)
Definition well_formed_entry (v : entry) : Prop :=
  ∃ status, get_opt "status" v = Some status
            ∧ status ∈ ["open"; "closed"; "error"].

(** A dictionary as a scan builds it: no port twice, every entry well
    formed. *)
Definition well_formed (results : dict Z entry) : Prop :=
  NoDup (keys results) ∧ Forall (λ kv, well_formed_entry kv.2) results.

(** What a scan of a range may raise: an interrupt, or what the network
    raised that is no [Exception]. *)
Definition not_Exception (e : exn) : Prop := is_Exception e = false.

(** The resolver was asked for [host] and raised [e], which is no
    [socket.gaierror]. *)
Definition resolver_raised (env : Env) (host : string) (e : exn) : Prop :=
  ip_address env host = false ∧ gethostbyname env host = Raises e
  ∧ ∀ msg, e ≠ gaierror msg.

(** What may leave [scan_ports], and what may leave [main]: besides, the
    end of the input at the prompt. *)
Definition scan_escape (env : Env) (host : string) (e : exn) : Prop :=
  is_Exception e = false ∨ resolver_raised env host e.

Definition may_escape (env : Env) (host : string) (e : exn) : Prop :=
  e = EOFError ∨ scan_escape env host e.

(** The text [save_results] writes for a dictionary: one line per entry, in
    the order the dictionary holds them. *)
Definition file_text (results : dict Z entry) : string :=
  foldr (λ kv rest, "Port " +:+ pretty kv.1 +:+ ": " +:+ get "status" "" kv.2
                    +:+ nl +:+ rest)
        "" results.

(** The address a scan of [host] connects to. *)
Definition address (env : Env) (host : string) : string :=
  if ip_address env host then host
  else match gethostbyname env host with
       | Returns addr => addr
       | Raises _ => host
       end.

(** The prompt after an interrupt and the answer to an invalid input. *)
Definition question : string := nl +:+ "Do you want to quit (q) or continue (c)? ".
Definition invalid_input : string :=
  "Invalid input, please enter 'q' to quit or 'c' to continue.".

(** The probe of [port] at [host] meets no exception: the port answers and
    the connection is closed cleanly. *)
Definition answers (env : Env) (host : string) (port : Z) : Prop :=
  first_exn (network env host port scan_port_timeout) = None.

#[global] Instance answers_dec env host port : Decision (answers env host port).
Proof. unfold answers. apply _. Defined.

(** A row of the table of open ports, and everything a completed scan of
    the ports [start_from_port] to [end_port] prints. *)
Definition row (port : Z) : string :=
  ljust 10 (pretty port) +:+ " " +:+ ljust 10 "OPEN" +:+ " "
  +:+ ljust 20 (default "Unknown" (COMMON_PORTS !! port)).

Definition report (env : Env) (host : string) (start_port end_port start_from_port : Z)
  : list string :=
  let open_ports := filter (answers env host) (range start_from_port (end_port + 1)) in
  [nl +:+ "Starting port scan on " +:+ host +:+ " from port "
   +:+ pretty start_port +:+ " to " +:+ pretty end_port +:+ "...";
   nl +:+ "Scan Results:";
   repeat_str "-" 60;
   ljust 10 "Port" +:+ " " +:+ ljust 10 "Status" +:+ " " +:+ ljust 20 "Service";
   repeat_str "-" 60]
  ++ (row <$> open_ports)
  ++ [nl +:+ "Scan Summary:";
      "Total ports scanned: " +:+ pretty (end_port - start_from_port + 1);
      "Open ports found: " +:+ pretty (Z.of_nat (length open_ports));
      "Scan completed in " +:+ elapsed env +:+ " seconds."].

(** The arguments pass the validation of [main], without [--common]; the
    first scan of a run on them; a run whose first scan is interrupted. *)
Definition validated (args : Namespace) : Prop :=
  common args = false ∧ 1 ≤ start_port args ≤ end_port args
  ∧ end_port args ≤ 65535.

Definition first_scan (env : Env) (args : Namespace) : M Z :=
  scan_ports env (host args) (start_port args) (end_port args)
             scan_ports_start_from_port.

Definition interrupted (env : Env) (args : Namespace) (w : world) : Prop :=
  validated args ∧ (first_scan env args w).2 = Raises KeyboardInterrupt.

(** The scan a run makes when the operator answers [c], and the lines
    printed between the interrupt and that scan. *)
Definition resuming : list string :=
  [nl +:+ "Scan interrupted."; question; "Resuming scan..."].

Definition resumed_scan (env : Env) (args : Namespace) : M Z :=
  scan_ports env (host args) (start_port args) (end_port args) (start_port args).

(** ** A laboratory *)

Definition accepted : attempt :=
  {| open_connection := None; writer_close := None; writer_wait_closed := None |}.

Definition refused : attempt :=
  {| open_connection := Some ConnectionRefusedError; writer_close := None;
     writer_wait_closed := None |}.

Definition cancelled : attempt :=
  {| open_connection := Some CancelledError; writer_close := None;
     writer_wait_closed := None |}.

Definition reset_on_close : attempt :=
  {| open_connection := None; writer_close := None;
     writer_wait_closed := Some (OSError "Connection reset by peer") |}.

Definition timeout_on_close : attempt :=
  {| open_connection := None; writer_close := None;
     writer_wait_closed := Some TimeoutError |}.

Definition cancelled_on_close : attempt :=
  {| open_connection := None; writer_close := None;
     writer_wait_closed := Some CancelledError |}.

(** A host at a literal address on which SSH alone listens; the tasks of a
    batch complete in the order they were created.  The resolver knows the
    name [scanme.test] of the host, cannot encode the name [a..b] and finds
    no address for any other name; a file cannot be opened in a directory
    that does not exist. *)
Definition lab : Env :=
  {| ip_address := λ h, bool_decide (h = "10.0.0.1");
     gethostbyname := λ h,
       if decide (h = "scanme.test") then Returns "10.0.0.1"
       else if decide (h = "a..b")
            then Raises (ValueError "encoding with 'idna' codec failed")
            else Raises (gaierror "[Errno -2] Name or service not known");
     open_for_writing := λ f,
       if decide (f = "missing/out.txt")
       then Some (OSError "[Errno 2] No such file or directory: 'missing/out.txt'")
       else None;
     network := λ _ p _, if decide (p = 22) then accepted else refused;
     as_completed := λ tasks, tasks;
     elapsed := "0.00" |}.

(** The same host when the network answers every probe with [a]. *)
Definition lab_with (a : attempt) : Env :=
  {| ip_address := ip_address lab; gethostbyname := gethostbyname lab;
     open_for_writing := open_for_writing lab;
     network := λ _ _ _, a; as_completed := as_completed lab;
     elapsed := elapsed lab |}.

(** A fresh process, and one that receives a SIGINT once [n] probes have
    completed. *)
Definition boot : world := {| stdout := []; trace := []; fs := ∅; sigint := [] |}.

Definition boot_interrupted (n : nat) : world :=
  {| stdout := []; trace := []; fs := ∅; sigint := [n] |}.

(** [scanner.py 10.0.0.1 -s s -e e] *)
Definition cli (s e : Z) : Namespace :=
  {| host := "10.0.0.1"; start_port := s; end_port := e; output := None;
     timeout := 1; common := false |}.

(** * Properties *)

(** ** Dictionaries *)

Section DictFacts.
Context {K V : Type} `{EqDecision K}.
Implicit Types (d : dict K V) (k : K) (v : V).

Lemma get_opt_setitem_eq d k v : get_opt k (setitem k v d) = Some v.
Proof.
  induction d as [|[k' v'] d IH]; simpl.
  - by rewrite decide_True.
  - destruct (decide (k' = k)) as [->|Hne]; simpl.
    + by rewrite decide_True.
    + by rewrite decide_False.
Qed.

Lemma get_opt_setitem_ne d k k' v :
  k ≠ k' → get_opt k' (setitem k v d) = get_opt k' d.
Proof.
  intros Hne. induction d as [|[k0 v0] d IH]; simpl.
  - by rewrite decide_False.
  - destruct (decide (k0 = k)) as [->|Hne0]; simpl.
    + by rewrite !decide_False.
    + by rewrite IH.
Qed.

Lemma get_opt_None d k : get_opt k d = None ↔ k ∉ keys d.
Proof.
  unfold keys. induction d as [|[k' v'] d IH]; simpl.
  - split; [intros _; apply not_elem_of_nil | done].
  - rewrite not_elem_of_cons. destruct (decide (k' = k)) as [->|Hne].
    + split; [done | intros [? _]; done].
    + rewrite IH. split; [intros ?; split; [congruence | done] | intros [_ ?]; done].
Qed.

(** Assigning to a key twice leaves what the second assignment alone
    leaves: the key keeps its place. *)
Lemma setitem_setitem d k v v' : setitem k v (setitem k v' d) = setitem k v d.
Proof.
  induction d as [|[k0 v0] d IH]; simpl.
  - by rewrite decide_True.
  - destruct (decide (k0 = k)) as [->|Hne]; simpl.
    + by rewrite decide_True.
    + by rewrite decide_False, IH.
Qed.

Lemma keys_setitem_fresh d k v : k ∉ keys d → keys (setitem k v d) = keys d ++ [k].
Proof.
  unfold keys. induction d as [|[k0 v0] d IH]; simpl; [done|].
  rewrite not_elem_of_cons. intros [Hne Hnin].
  rewrite decide_False by congruence. simpl.
  f_equal. by apply IH.
Qed.

Lemma keys_setitem_present d k v : k ∈ keys d → keys (setitem k v d) = keys d.
Proof.
  unfold keys. induction d as [|[k0 v0] d IH]; simpl.
  - intros Hin. by apply elem_of_nil in Hin.
  - destruct (decide (k0 = k)) as [->|Hne]; simpl; [done|].
    rewrite elem_of_cons. intros [->|Hin]; [done|].
    f_equal. by apply IH.
Qed.

Lemma len_length d : len d = Z.of_nat (length (keys d)).
Proof. unfold len, keys. by rewrite length_fmap. Qed.

(** Filling a dictionary with fresh, distinct keys lists them in the order
    they were assigned. *)
Lemma keys_foldl_setitem (f : K → V) (ks : list K) d :
  NoDup ks → (∀ k, k ∈ ks → k ∉ keys d) →
  keys (foldl (λ r k, setitem k (f k) r) d ks) = keys d ++ ks.
Proof.
  revert d. induction ks as [|k ks IH]; intros d Hnd Hfresh; simpl.
  - by rewrite app_nil_r.
  - apply NoDup_cons in Hnd as [Hk Hnd].
    rewrite IH; [| done |].
    + rewrite keys_setitem_fresh by (apply Hfresh; left).
      by rewrite <- app_assoc.
    + intros k' Hk'. rewrite keys_setitem_fresh by (apply Hfresh; left).
      rewrite not_elem_of_app, not_elem_of_cons. split_and!.
      * apply Hfresh. by right.
      * intros ->. done.
      * apply not_elem_of_nil.
Qed.

Lemma get_opt_foldl_setitem (f : K → V) (ks : list K) d k :
  k ∈ ks → get_opt k (foldl (λ r k, setitem k (f k) r) d ks) = Some (f k).
Proof.
  revert d. induction ks as [|k0 ks IH] using rev_ind; intros d Hin.
  - by apply elem_of_nil in Hin.
  - rewrite foldl_app. simpl. destruct (decide (k0 = k)) as [->|Hne].
    + apply get_opt_setitem_eq.
    + rewrite get_opt_setitem_ne by done. apply IH.
      apply elem_of_app in Hin as [Hin|Hin]; [done|].
      apply list_elem_of_singleton in Hin. congruence.
Qed.
End DictFacts.

(** ** Ranges *)

Lemma range_length (a b : Z) : length (range a b) = Z.to_nat (b - a).
Proof. unfold range. by rewrite length_fmap, length_seq. Qed.

Lemma elem_of_range (a b x : Z) : x ∈ range a b ↔ a ≤ x < b.
Proof.
  unfold range. rewrite list_elem_of_fmap. split.
  - intros (i & -> & Hi). apply elem_of_seq in Hi. lia.
  - intros Hx. exists (Z.to_nat (x - a)). split; [lia|]. apply elem_of_seq. lia.
Qed.

Lemma NoDup_range (a b : Z) : NoDup (range a b).
Proof.
  unfold range. apply NoDup_fmap_2; [|apply NoDup_seq].
  intros i j Hij. lia.
Qed.

Lemma range_empty (a b : Z) : b ≤ a → range a b = [].
Proof. intros Hba. unfold range. by replace (Z.to_nat (b - a)) with O by lia. Qed.

Lemma range_app (a b c : Z) : a ≤ b ≤ c → range a b ++ range b c = range a c.
Proof.
  intros Habc. unfold range.
  replace (Z.to_nat (c - a)) with (Z.to_nat (b - a) + Z.to_nat (c - b))%nat by lia.
  rewrite seq_app, fmap_app. f_equal. simpl.
  assert (seq (Z.to_nat (b - a)) (Z.to_nat (c - b))
          = Nat.add (Z.to_nat (b - a)) <$> seq 0 (Z.to_nat (c - b))) as ->
    by (rewrite fmap_add_seq; f_equal; lia).
  rewrite <- list_fmap_compose.
  apply list_fmap_ext. intros _ i _. simpl. lia.
Qed.

(** ** The batches of a scan *)

Lemma ceil_div_spec (a b : Z) :
  0 < b → b * (ceil_div a b - 1) < a ≤ b * ceil_div a b.
Proof.
  intros Hb. unfold ceil_div.
  pose proof (Z.div_mod (a + b - 1) b ltac:(lia)) as Hdm.
  pose proof (Z.mod_pos_bound (a + b - 1) b Hb) as Hm.
  lia.
Qed.

Lemma ceil_div_unique (a b n : Z) :
  0 < b → b * (n - 1) < a ≤ b * n → ceil_div a b = n.
Proof.
  intros Hb Hn. pose proof (ceil_div_spec a b Hb) as Hc. nia.
Qed.

Lemma range3_forward (start stop step : Z) :
  0 < step →
  range3 start stop step
  = Returns ((λ i : nat, start + Z.of_nat i * step)
               <$> seq 0 (Z.to_nat (ceil_div (stop - start) step))).
Proof.
  intros Hstep. unfold range3, ceil_div.
  rewrite decide_False by lia. by rewrite decide_True by done.
Qed.

Section Batches.
Variables (end_port start_from_port : Z).
Hypothesis valid : start_from_port ≤ end_port.

(** The number of ports, the size of a chunk and the number of chunks. *)
Local Abbreviation R := (end_port - start_from_port + 1).
Local Abbreviation size := (Z.min 1000 R).
Local Abbreviation count := (ceil_div R size).

Lemma batches_eq :
  batches end_port start_from_port
  = (λ i : nat, chunk end_port size (start_from_port + Z.of_nat i * size))
      <$> seq 0 (Z.to_nat count).
Proof.
  unfold batches.
  rewrite range3_forward by lia.
  rewrite <- list_fmap_compose.
  replace (end_port + 1 - start_from_port) with R by lia.
  done.
Qed.

Lemma batch_count_bounds : size * (count - 1) < R ≤ size * count.
Proof. apply ceil_div_spec. lia. Qed.

Lemma batch_count : count = ceil_div R 1000.
Proof.
  symmetry. apply ceil_div_unique; [lia|].
  pose proof batch_count_bounds as Hn.
  destruct (Z.min_spec 1000 R) as [[? Hmin]|[? Hmin]];
    rewrite Hmin in *; [lia|].
  assert (ceil_div R R = 1) as -> by nia. lia.
Qed.

Lemma batches_length : Z.of_nat (length (batches end_port start_from_port)) = count.
Proof.
  rewrite batches_eq, length_fmap, length_seq.
  pose proof batch_count_bounds. nia.
Qed.

Lemma batches_lookup (i : nat) (b : list Z) :
  batches end_port start_from_port !! i = Some b →
  Z.of_nat i < count ∧
  b = chunk end_port size (start_from_port + Z.of_nat i * size).
Proof.
  rewrite batches_eq, list_lookup_fmap. intros Hb.
  destruct (seq 0 (Z.to_nat count) !! i) as [j|] eqn:Hj; [|done].
  apply lookup_seq in Hj as [-> Hi]. simpl in Hb. split; [lia | congruence].
Qed.

Lemma chunk_length (i : nat) :
  Z.of_nat i < count →
  Z.of_nat (length (chunk end_port size (start_from_port + Z.of_nat i * size)))
  = Z.min size (R - Z.of_nat i * size).
Proof.
  intros Hi. unfold chunk. rewrite range_length.
  pose proof batch_count_bounds. nia.
Qed.

Lemma concat_chunks (k : nat) :
  Z.of_nat k * size < R + size →
  concat ((λ i : nat, chunk end_port size (start_from_port + Z.of_nat i * size))
            <$> seq 0 k)
  = range start_from_port
          (Z.min (start_from_port + Z.of_nat k * size) (end_port + 1)).
Proof.
  assert (0 < size) as Hcs by lia.
  induction k as [|k IH]; intros Hk.
  - simpl. by rewrite range_empty by lia.
  - rewrite seq_S, fmap_app, concat_app. simpl. rewrite app_nil_r.
    rewrite IH by lia. unfold chunk.
    rewrite (Z.min_l (start_from_port + Z.of_nat k * size)) by lia.
    rewrite range_app by lia.
    f_equal. lia.
Qed.

(** The batches are consecutive slices of the range: together they are
    the range itself. *)
Lemma concat_batches :
  concat (batches end_port start_from_port) = range start_from_port (end_port + 1).
Proof.
  pose proof batch_count_bounds as Hn.
  assert (0 < size) as Hcs by lia.
  assert (0 ≤ count) by nia.
  rewrite batches_eq, concat_chunks by nia.
  f_equal. nia.
Qed.
End Batches.

(** ** Running the program *)

Lemma log_nil w : log w [] [] = w.
Proof. destruct w. unfold log. simpl. by rewrite !app_nil_r. Qed.

Lemma log_log w out evs out' evs' :
  log (log w out evs) out' evs' = log w (out ++ out') (evs ++ evs').
Proof. unfold log. simpl. by rewrite !app_assoc. Qed.

Lemma bind_run {A B} (m : M A) (k : A → M B) (w : world) :
  (m ≫= k) w = match m w with
               | (w', Returns a) => k a w'
               | (w', Raises e) => (w', Raises e)
               end.
Proof. done. Qed.

Lemma bind_returns {A B} (m : M A) (k : A → M B) (w w' : world) (a : A) :
  m w = (w', Returns a) → (m ≫= k) w = k a w'.
Proof. intros Hm. by rewrite bind_run, Hm. Qed.

Lemma bind_raises {A B} (m : M A) (k : A → M B) (w w' : world) (e : exn) :
  m w = (w', Raises e) → (m ≫= k) w = (w', Raises e).
Proof. intros Hm. by rewrite bind_run, Hm. Qed.

Lemma ret_run {A} (a : A) (w : world) : (mret a : M A) w = (w, Returns a).
Proof. done. Qed.

Lemma print_run s w : print s w = (log w [s] [], Returns ()).
Proof. unfold print, log. by rewrite app_nil_r. Qed.

Lemma emit_run e w : emit e w = (log w [] [e], Returns ()).
Proof. unfold emit, log. by rewrite app_nil_r. Qed.

Lemma check_signals_quiet w : sigint w = [] → check_signals w = (w, Returns ()).
Proof. intros Hq. unfold check_signals. by rewrite Hq. Qed.

Lemma verdict_has_status a port : is_Some (get_opt "status" (verdict a port)).
Proof.
  unfold verdict. destruct (first_exn a) as [e|]; [destruct e|]; by eexists.
Qed.

Section Runs.
Variable env : Env.

Lemma scan_port_except_caught port results e w :
  is_Exception e = true →
  scan_port_except port results e w
  = (w, Returns (setitem port (caught_entry e) results)).
Proof. by destruct e. Qed.

Lemma scan_port_except_propagates port results e w :
  is_Exception e = false → scan_port_except port results e w = (w, Raises e).
Proof. by destruct e. Qed.

Lemma scan_port_run host port results t w :
  contained (network env host port t) = true →
  scan_port env host port results t w
  = (log w [] [OpenConnection host port t],
     Returns (setitem port (verdict (network env host port t) port) results)).
Proof.
  unfold contained, verdict, first_exn, scan_port. intros Hc.
  rewrite (bind_returns _ _ _ _ _ (emit_run _ w)).
  destruct (network env host port t) as [[e1|] [e2|] [e3|]]; simpl in *;
    rewrite ?scan_port_except_caught by done;
    by rewrite ?setitem_setitem.
Qed.

Lemma scan_port_raises host port results t w e :
  first_exn (network env host port t) = Some e → is_Exception e = false →
  scan_port env host port results t w
  = (log w [] [OpenConnection host port t], Raises e).
Proof.
  unfold first_exn, scan_port. intros He Hb.
  rewrite (bind_returns _ _ _ _ _ (emit_run _ w)).
  destruct (network env host port t) as [[e1|] [e2|] [e3|]]; simpl in *;
    simplify_eq; by rewrite scan_port_except_propagates.
Qed.

Lemma create_tasks_run ports w :
  create_tasks ports w = (log w [] (CreateTask <$> ports), Returns ports).
Proof.
  revert w. induction ports as [|p ports IH]; intros w; simpl.
  - by rewrite ret_run, log_nil.
  - rewrite (bind_returns _ _ _ _ _ (emit_run _ w)).
    rewrite (bind_returns _ _ _ _ _ (IH _)).
    by rewrite ret_run, log_log.
Qed.

Hypothesis probes_contained : ∀ h p t, contained (network env h p t) = true.

Lemma await_each_run host completed results w :
  sigint w = [] →
  await_each env host completed results w
  = (log w [] (probes host completed), Returns (foldl (record env host) results completed)).
Proof.
  revert results w. induction completed as [|p ps IH]; intros results w Hq; simpl.
  - by rewrite ret_run, log_nil.
  - rewrite (bind_returns _ _ _ _ _ (check_signals_quiet w Hq)).
    rewrite (bind_returns _ _ _ _ _ (scan_port_run _ _ _ _ _ (probes_contained _ _ _))).
    rewrite IH by done. by rewrite log_log.
Qed.

Lemma scan_chunk_run host end_port chunk_size port results w :
  sigint w = [] →
  scan_chunk env host end_port chunk_size port results w
  = (log w [] (segment env host (chunk end_port chunk_size port)),
     Returns (foldl (record env host) results
                    (as_completed env (chunk end_port chunk_size port)))).
Proof.
  intros Hq. unfold scan_chunk.
  rewrite (bind_returns _ _ _ _ _ (create_tasks_run _ w)).
  rewrite await_each_run by done. by rewrite log_log.
Qed.

Lemma for_chunks_run host end_port chunk_size ports results w :
  sigint w = [] →
  for_chunks env host end_port chunk_size ports results w
  = (log w [] (concat (segment env host <$> (chunk end_port chunk_size <$> ports))),
     Returns (foldl (record env host) results
                (concat (as_completed env <$> (chunk end_port chunk_size <$> ports))))).
Proof.
  revert results w. induction ports as [|p ps IH]; intros results w Hq; simpl.
  - by rewrite ret_run, log_nil.
  - rewrite (bind_returns _ _ _ _ _ (scan_chunk_run _ _ _ _ _ w Hq)).
    rewrite IH by done. by rewrite log_log, foldl_app.
Qed.

Lemma scan_range_run host end_port start_from_port w :
  start_from_port ≤ end_port → sigint w = [] →
  scan_range env host end_port start_from_port w
  = (log w [] (concat (segment env host <$> batches end_port start_from_port)),
     Returns (foldl (record env host) []
                (concat (as_completed env <$> batches end_port start_from_port)))).
Proof.
  intros Hv Hq. unfold scan_range, batches.
  rewrite range3_forward by lia.
  by rewrite for_chunks_run.
Qed.
End Runs.

(** ** What every run does, completed or not *)

Lemma grows_refl P w : grows P w w.
Proof. split; [done|]. exists [], []. by rewrite !app_nil_r. Qed.

Lemma grows_trans P w1 w2 w3 : grows P w1 w2 → grows P w2 w3 → grows P w1 w3.
Proof.
  intros (Hfs & out & evs & Hout & Hevs & HP) (Hfs' & out' & evs' & Hout' & Hevs' & HP').
  split; [congruence|]. exists (out ++ out'), (evs ++ evs').
  rewrite Hout', Hout, Hevs', Hevs, !app_assoc. split_and!; [done..|].
  by apply Forall_app.
Qed.

Lemma grows_weaken (P Q : event → Prop) w w' :
  (∀ ev, P ev → Q ev) → grows P w w' → grows Q w w'.
Proof.
  intros HPQ (Hfs & out & evs & Hout & Hevs & HP).
  split; [done|]. exists out, evs. split_and!; [done..|].
  eapply Forall_impl; eauto.
Qed.

Lemma grows_log P w out evs : Forall P evs → grows P w (log w out evs).
Proof. intros HP. split; [done|]. by exists out, evs. Qed.

Section Keeps.
Context {A B : Type} (P : event → Prop).

Lemma keeps_weaken (Q : event → Prop) (m : M A) :
  (∀ ev, Q ev → P ev) → keeps Q m → keeps P m.
Proof. intros HQP Hm w. eapply grows_weaken; eauto. Qed.

Lemma keeps_ret (a : A) : keeps P (mret a : M A).
Proof. intros w. apply grows_refl. Qed.

Lemma keeps_raise (e : exn) : keeps P (raise e : M A).
Proof. intros w. apply grows_refl. Qed.

Lemma keeps_bind (m : M A) (k : A → M B) :
  keeps P m → (∀ a, keeps P (k a)) → keeps P (m ≫= k).
Proof.
  intros Hm Hk w. rewrite bind_run. specialize (Hm w).
  destruct (m w) as [w' [a|e]]; simpl in *; [|done].
  eapply grows_trans; [done | apply Hk].
Qed.

Lemma keeps_except (m h : M A) :
  keeps P m → keeps P h → keeps P (except_KeyboardInterrupt m h).
Proof.
  intros Hm Hh w. unfold except_KeyboardInterrupt. specialize (Hm w).
  destruct (m w) as [w' [a|e]]; simpl in *; [done|].
  destruct e; simpl; try done.
  eapply grows_trans; [done | apply Hh].
Qed.
End Keeps.

Lemma keeps_print P s : keeps P (print s).
Proof. intros w. rewrite print_run. by apply grows_log. Qed.

Lemma keeps_emit (P : event → Prop) e : P e → keeps P (emit e).
Proof. intros He w. rewrite emit_run. apply grows_log. by constructor. Qed.

Lemma keeps_check_signals P : keeps P check_signals.
Proof.
  intros w. unfold check_signals.
  destruct (sigint w) as [|[|k] rest]; simpl; [apply grows_refl|..];
    (split; [done|]; exists [], []; simpl; by rewrite !app_nil_r).
Qed.

Create HintDb keeps.
#[local] Hint Resolve keeps_ret keeps_raise keeps_print keeps_check_signals : keeps.

Section Frames.
Variable env : Env.

Lemma keeps_scan_port_except P port results e :
  keeps P (scan_port_except port results e).
Proof.
  unfold scan_port_except.
  destruct e; simpl; auto with keeps.
Qed.

Lemma keeps_scan_port (P : event → Prop) host port results t :
  P (OpenConnection host port t) → keeps P (scan_port env host port results t).
Proof.
  intros HP. unfold scan_port.
  apply keeps_bind; [by apply keeps_emit|]. intros _.
  destruct (network env host port t) as [[e1|] [e2|] [e3|]]; simpl;
    auto using keeps_scan_port_except with keeps.
Qed.

Lemma keeps_create_tasks (P : event → Prop) ports :
  (∀ p, P (CreateTask p)) → keeps P (create_tasks ports).
Proof.
  intros HP. induction ports as [|p ports IH]; simpl; [auto with keeps|].
  apply keeps_bind; [by apply keeps_emit|]. intros _.
  apply keeps_bind; [done|]. intros tasks. auto with keeps.
Qed.

Lemma keeps_await_each host completed results :
  keeps (scan_event host) (await_each env host completed results).
Proof.
  revert results. induction completed as [|p ps IH]; intros results; simpl;
    [auto with keeps|].
  apply keeps_bind; [auto with keeps|]. intros _.
  apply keeps_bind; [by apply keeps_scan_port|]. intros results'. apply IH.
Qed.

Lemma keeps_scan_chunk host end_port chunk_size port results :
  keeps (scan_event host) (scan_chunk env host end_port chunk_size port results).
Proof.
  unfold scan_chunk. apply keeps_bind; [by apply keeps_create_tasks|].
  intros tasks. apply keeps_await_each.
Qed.

Lemma keeps_for_chunks host end_port chunk_size ports results :
  keeps (scan_event host) (for_chunks env host end_port chunk_size ports results).
Proof.
  revert results. induction ports as [|p ps IH]; intros results; simpl;
    [auto with keeps|].
  apply keeps_bind; [apply keeps_scan_chunk|]. intros results'. apply IH.
Qed.

Lemma keeps_scan_range host end_port start_from_port :
  keeps (scan_event host) (scan_range env host end_port start_from_port).
Proof.
  unfold scan_range.
  destruct (range3 _ _ _) as [ports|e]; [apply keeps_for_chunks | auto with keeps].
Qed.

Lemma keeps_print_open P ports results open_ports :
  keeps P (print_open ports results open_ports).
Proof.
  revert open_ports. induction ports as [|p ps IH]; intros open_ports; simpl;
    [auto with keeps|].
  destruct (getitem p results) as [result|e]; [|auto with keeps].
  destruct (getitem "status" result) as [status|e]; [|auto with keeps].
  case_decide; [|apply IH].
  apply keeps_bind; [auto with keeps|]. intros _. apply IH.
Qed.

Lemma keeps_scan_resolved host start_port end_port start_from_port :
  keeps (scan_event host) (scan_resolved env host start_port end_port start_from_port).
Proof.
  unfold scan_resolved.
  repeat (first [ apply keeps_scan_range | apply keeps_print_open
                | apply keeps_bind; [|intros ?] | solve [auto with keeps] ]).
Qed.


Lemma keeps_scan_ports host start_port end_port start_from_port :
  keeps default_timeout_event
        (scan_ports env host start_port end_port start_from_port).
Proof.
  assert (∀ h ev, scan_event h ev → default_timeout_event ev) as Hw
    by (intros h [] Hev; simpl in *; tauto).
  unfold scan_ports. destruct (ip_address env host).
  - eapply keeps_weaken; [apply Hw | apply keeps_scan_resolved].
  - apply keeps_bind; [by apply keeps_emit|]. intros _.
    destruct (gethostbyname env host) as [addr|e].
    + eapply keeps_weaken; [apply Hw | apply keeps_scan_resolved].
    + destruct e; auto with keeps.
      apply keeps_bind; [|intros ?]; auto with keeps.
Qed.

Lemma keeps_prompt args current_port typed :
  keeps default_timeout_event (prompt env args current_port typed).
Proof.
  induction typed as [|[s|] typed IH]; simpl.
  - apply keeps_bind; [|intros ?]; auto with keeps.
  - apply keeps_bind; [auto with keeps|]. intros _.
    repeat case_decide.
    + apply keeps_bind; [|intros ?]; auto with keeps.
    + apply keeps_except.
      * apply keeps_bind; [auto with keeps|]. intros _.
        apply keeps_bind; [apply keeps_scan_ports|]. intros ?. auto with keeps.
      * apply keeps_bind; [|intros ?]; auto with keeps.
    + apply keeps_bind; [auto with keeps|]. intros _. apply IH.
  - apply keeps_bind; [auto with keeps|]. intros _.
    apply keeps_bind; [|intros ?]; auto with keeps.
Qed.

Lemma keeps_main args typed : keeps default_timeout_event (main env args typed).
Proof.
  unfold main. apply keeps_bind.
  - destruct (common args); [|auto with keeps].
    destruct (Py.min _); [destruct (Py.max _)|]; auto with keeps.
  - intros args'. repeat case_decide; [auto with keeps..|].
    apply keeps_except.
    + apply keeps_bind; [apply keeps_scan_ports|]. intros ?. auto with keeps.
    + apply keeps_bind; [auto with keeps|]. intros _. apply keeps_prompt.
Qed.
End Frames.

(** ** Scans that run to completion *)

Lemma concat_fmap_perm {A} (f : list A → list A) (ls : list (list A)) :
  (∀ l, f l ≡ₚ l) → concat (f <$> ls) ≡ₚ concat ls.
Proof.
  intros Hf. induction ls as [|l ls IH]; simpl; [done|]. by rewrite Hf, IH.
Qed.

Section Completed.
Variable env : Env.
Hypothesis Henv : well_behaved env.

Lemma probed_probes host ports : probed (probes host ports) = ports.
Proof.
  unfold probed, probes. induction ports as [|p ps IH]; simpl; [done|]. by f_equal.
Qed.

Lemma probed_tasks ports : probed (CreateTask <$> ports) = [].
Proof. induction ports as [|p ps IH]; simpl; done. Qed.

Lemma tasks_created_tasks ports : tasks_created (CreateTask <$> ports) = ports.
Proof.
  unfold tasks_created. induction ports as [|p ps IH]; simpl; [done|]. by f_equal.
Qed.

Lemma tasks_created_probes host ports : tasks_created (probes host ports) = [].
Proof. unfold probes. induction ports as [|p ps IH]; simpl; done. Qed.

Lemma probed_app evs evs' : probed (evs ++ evs') = probed evs ++ probed evs'.
Proof. apply omap_app. Qed.

Lemma tasks_created_app evs evs' :
  tasks_created (evs ++ evs') = tasks_created evs ++ tasks_created evs'.
Proof. apply omap_app. Qed.

Lemma probed_segments host (bs : list (list Z)) :
  probed (concat (segment env host <$> bs)) = concat (as_completed env <$> bs).
Proof.
  induction bs as [|b bs IH]; [done|].
  rewrite !fmap_cons, !concat_cons, probed_app, IH. f_equal.
  unfold segment. by rewrite probed_app, probed_tasks, probed_probes.
Qed.

Lemma tasks_created_segments host (bs : list (list Z)) :
  tasks_created (concat (segment env host <$> bs)) = concat bs.
Proof.
  induction bs as [|b bs IH]; [done|].
  rewrite !fmap_cons, !concat_cons, tasks_created_app, IH. f_equal.
  unfold segment.
  by rewrite tasks_created_app, tasks_created_tasks, tasks_created_probes, app_nil_r.
Qed.

Section Range.
Variables (host : string) (end_port start_from_port : Z).
Hypothesis valid : start_from_port ≤ end_port.

Lemma completion_order_perm :
  completion_order env end_port start_from_port
  ≡ₚ range start_from_port (end_port + 1).
Proof.
  unfold completion_order.
  rewrite concat_fmap_perm by apply Henv. by rewrite concat_batches.
Qed.

Lemma keys_scanned :
  keys (scanned env host end_port start_from_port)
  = completion_order env end_port start_from_port.
Proof.
  unfold scanned, record.
  rewrite (keys_foldl_setitem
             (λ p, verdict (network env host p scan_port_timeout) p)).
  - done.
  - rewrite completion_order_perm. apply NoDup_range.
  - intros k _. apply not_elem_of_nil.
Qed.

Lemma len_scanned :
  len (scanned env host end_port start_from_port) = end_port - start_from_port + 1.
Proof.
  rewrite len_length, keys_scanned, completion_order_perm, range_length. lia.
Qed.

Lemma get_opt_scanned p :
  p ∈ keys (scanned env host end_port start_from_port) →
  get_opt p (scanned env host end_port start_from_port)
  = Some (verdict (network env host p scan_port_timeout) p).
Proof.
  rewrite keys_scanned. intros Hp. unfold scanned, record.
  by rewrite (get_opt_foldl_setitem
                (λ p, verdict (network env host p scan_port_timeout) p)).
Qed.

Lemma scan_range_completes w :
  sigint w = [] →
  scan_range env host end_port start_from_port w
  = (log w [] (concat (segment env host <$> batches end_port start_from_port)),
     Returns (scanned env host end_port start_from_port)).
Proof. intros Hq. rewrite scan_range_run; [done | apply Henv | done..]. Qed.
End Range.

Lemma print_open_run ports (results : dict Z entry) open_ports w :
  (∀ p, p ∈ ports →
        ∃ v, get_opt p results = Some v ∧ is_Some (get_opt "status" v)) →
  ∃ out n, print_open ports results open_ports w = (log w out [], Returns n).
Proof.
  revert open_ports w. induction ports as [|p ps IH]; intros open_ports w Hall; simpl.
  - exists [], open_ports. by rewrite ret_run, log_nil.
  - destruct (Hall p) as (v & Hv & status & Hs); [left|].
    unfold getitem. rewrite Hv, Hs.
    assert (∀ q, q ∈ ps →
              ∃ v, get_opt q results = Some v ∧ is_Some (get_opt "status" v))
      as Hall' by (intros q Hq; apply Hall; by right).
    case_decide.
    + rewrite (bind_returns _ _ _ _ _ (print_run _ w)).
      destruct (IH (open_ports + 1) (log w [ljust 10 (pretty p) +:+ " " +:+
                  ljust 10 "OPEN" +:+ " " +:+
                  ljust 20 (get "service" "Unknown" v)] []) Hall')
        as (out & n & ->).
      eexists _, n. by rewrite log_log.
    + destruct (IH open_ports w Hall') as (out & n & ->). by exists out, n.
Qed.

(** A scan that nothing interrupts returns the number of ports from
    [start_from_port] to [end_port], which it also prints. *)
Lemma scan_resolved_run host start_port end_port start_from_port w :
  start_from_port ≤ end_port → sigint w = [] →
  ∃ out,
    scan_resolved env host start_port end_port start_from_port w
    = (log w out (concat (segment env host <$> batches end_port start_from_port)),
       Returns (end_port - start_from_port + 1))
    ∧ "Total ports scanned: " +:+ pretty (end_port - start_from_port + 1) ∈ out.
Proof.
  intros Hv Hq. unfold scan_resolved.
  rewrite (bind_returns _ _ _ _ _ (print_run _ w)).
  rewrite (bind_returns _ _ _ _ _ (scan_range_completes host _ _ Hv (log w _ _) Hq)).
  repeat (erewrite bind_returns by apply print_run).
  edestruct (print_open_run (sorted (keys (scanned env host end_port start_from_port))))
    as (out & n & Hpo); [|erewrite (bind_returns _ _ _ _ _ Hpo)].
  { intros p Hp. unfold sorted in Hp. rewrite merge_sort_Permutation in Hp.
    rewrite get_opt_scanned by done. eexists. split; [done|].
    apply verdict_has_status. }
  repeat (erewrite bind_returns by apply print_run).
  rewrite ret_run. repeat rewrite log_log. rewrite len_scanned by done.
  eexists. split.
  - f_equal. f_equal. by rewrite ?app_nil_r.
  - do 8 (apply elem_of_app; right). apply elem_of_app. left.
    by apply list_elem_of_singleton.
Qed.
End Completed.

(** ** Whole runs of [main] *)

Lemma except_returns {A} (m h : M A) w w' a :
  m w = (w', Returns a) → except_KeyboardInterrupt m h w = (w', Returns a).
Proof. intros Hm. unfold except_KeyboardInterrupt. by rewrite Hm. Qed.

Lemma common_ports_sorted :
  sorted (elements (dom COMMON_PORTS))
  = [20; 21; 22; 23; 25; 53; 80; 443; 3306; 5432; 27017].
Proof. vm_compute. reflexivity. Qed.

Section MainRuns.
Variable env : Env.
Hypothesis Henv : well_behaved env.

Lemma scan_ports_literal_run host start_port end_port start_from_port w :
  ip_address env host = true → start_from_port ≤ end_port → sigint w = [] →
  ∃ out,
    scan_ports env host start_port end_port start_from_port w
    = (log w out (concat (segment env host <$> batches end_port start_from_port)),
       Returns (end_port - start_from_port + 1))
    ∧ "Total ports scanned: " +:+ pretty (end_port - start_from_port + 1) ∈ out.
Proof.
  intros Hip Hv Hq. unfold scan_ports. rewrite Hip.
  by apply scan_resolved_run.
Qed.

(** What [main] does once the arguments passed validation, when nothing
    interrupts the scan: it scans from [scan_ports_start_from_port]. *)
Lemma validated_run (args : Namespace) typed w :
  ip_address env (host args) = true →
  1 ≤ start_port args ≤ end_port args → end_port args ≤ 65535 →
  sigint w = [] →
  ∃ out,
    except_KeyboardInterrupt
      (scan_ports env (host args) (start_port args) (end_port args)
                  scan_ports_start_from_port ;;
       mret ())
      (print (nl +:+ "Scan interrupted.") ;;
       prompt env args (start_port args) typed) w
    = (log w out (concat (segment env (host args) <$> batches (end_port args) 0)),
       Returns ())
    ∧ "Total ports scanned: " +:+ pretty (end_port args + 1) ∈ out.
Proof.
  intros Hip Hse He Hq.
  destruct (scan_ports_literal_run (host args) (start_port args) (end_port args)
              scan_ports_start_from_port w Hip) as (out & Hrun & Hout);
    [unfold scan_ports_start_from_port; lia | done |].
  exists out. split.
  - apply except_returns. by rewrite (bind_returns _ _ _ _ _ Hrun).
  - unfold scan_ports_start_from_port in Hout.
    by replace (end_port args - 0 + 1) with (end_port args + 1) in Hout by lia.
Qed.

Lemma main_run (args : Namespace) typed w :
  common args = false → ip_address env (host args) = true →
  1 ≤ start_port args ≤ end_port args → end_port args ≤ 65535 →
  sigint w = [] →
  ∃ out,
    main env args typed w
    = (log w out (concat (segment env (host args) <$> batches (end_port args) 0)),
       Returns ())
    ∧ "Total ports scanned: " +:+ pretty (end_port args + 1) ∈ out.
Proof.
  intros Hc Hip Hse He Hq. unfold main. rewrite Hc.
  rewrite (bind_returns _ _ _ _ _ (ret_run args w)).
  rewrite decide_False by lia. rewrite decide_False by lia.
  by apply validated_run.
Qed.

Lemma main_common_run (args : Namespace) typed w :
  common args = true → ip_address env (host args) = true → sigint w = [] →
  ∃ out,
    main env args typed w
    = (log w out (concat (segment env (host args) <$> batches 27017 0)),
       Returns ())
    ∧ "Total ports scanned: 27018" ∈ out.
Proof.
  intros Hc Hip Hq. unfold main. rewrite Hc, common_ports_sorted.
  change (Py.min _) with (Returns (A:=Z) 20).
  change (Py.max _) with (Returns (A:=Z) 27017).
  cbv iota.
  erewrite bind_returns by apply ret_run.
  rewrite decide_False by (cbn [start_port end_port]; lia).
  rewrite decide_False by (cbn [start_port end_port]; lia).
  apply (validated_run
           {| host := host args; start_port := 20; end_port := 27017;
              output := output args; timeout := timeout args;
              common := true |} typed w); cbn [start_port end_port host];
    [done | lia | lia | done].
Qed.
End MainRuns.

Lemma lab_well_behaved : well_behaved lab.
Proof.
  split; [done|]. intros h p t. unfold lab. simpl. by case_decide.
Qed.

(** ** C1: the entries of a completed scan *)

(** The scan of a resumed run, which passes its start port as
    [start_from_port], holds exactly the ports of the range. *)
Lemma scan_from_start_port env host s e w :
  well_behaved env → sigint w = [] → s ≤ e →
  ∃ w' results,
    scan_range env host e s w = (w', Returns results) ∧
    keys results ≡ₚ range s (e + 1) ∧ NoDup (keys results) ∧
    len results = e - s + 1.
Proof.
  intros Henv Hq Hv. eexists _, _. split; [by apply scan_range_completes|].
  rewrite keys_scanned by done. split_and!.
  - by apply completion_order_perm.
  - rewrite completion_order_perm by done. apply NoDup_range.
  - by apply len_scanned.
Qed.

(** C1 (as the code has it).  The specification asks for exactly
    [e - s + 1] entries, one per port of [[s, e]].  [main] calls
    [scan_ports] without a fourth argument, so the scan starts at the
    default [start_from_port], port 0: a completed scan of a valid range
    [[s, e]] holds the [e + 1] ports of [[0, e]], port 0 among them; the run
    probes those ports and prints their number, which is not [e - s + 1]. *)
Theorem scan_starts_at_port_zero env (args : Namespace) typed w :
  well_behaved env → sigint w = [] → ip_address env (host args) = true →
  common args = false →
  1 ≤ start_port args ≤ end_port args → end_port args ≤ 65535 →
  ∃ w' results out evs,
    scan_range env (host args) (end_port args) scan_ports_start_from_port w
    = (w', Returns results) ∧
    keys results ≡ₚ range 0 (end_port args + 1) ∧
    0 ∈ keys results ∧
    len results = end_port args + 1 ∧
    len results ≠ end_port args - start_port args + 1 ∧
    main env args typed w = (log w out evs, Returns ()) ∧
    probed evs ≡ₚ range 0 (end_port args + 1) ∧
    "Total ports scanned: " +:+ pretty (end_port args + 1) ∈ out.
Proof.
  intros Henv Hq Hip Hc Hse He. unfold scan_ports_start_from_port.
  destruct (scan_from_start_port env (host args) 0 (end_port args) w)
    as (w' & results & Hrun & Hk & _ & Hlen); [done | done | lia |].
  destruct (main_run env Henv args typed w) as (out & Hmain & Hout); [done..|].
  exists w', results, out. eexists.
  split_and!; [done | done | | lia | lia | exact Hmain | | done].
  - rewrite Hk. apply elem_of_range. lia.
  - rewrite probed_segments. fold (completion_order env (end_port args) 0).
    apply completion_order_perm; [done | lia].
Qed.

Lemma scan_starts_at_port_zero_witness :
  ∃ w' results out evs,
    scan_range lab "10.0.0.1" 10 scan_ports_start_from_port boot
    = (w', Returns results) ∧
    keys results ≡ₚ range 0 (10 + 1) ∧
    0 ∈ keys results ∧
    len results = 10 + 1 ∧
    len results ≠ 10 - 5 + 1 ∧
    main lab (cli 5 10) [] boot = (log boot out evs, Returns ()) ∧
    probed evs ≡ₚ range 0 (10 + 1) ∧
    "Total ports scanned: " +:+ pretty (10 + 1) ∈ out.
Proof.
  apply (scan_starts_at_port_zero lab (cli 5 10) [] boot).
  - split; [reflexivity|]. intros h p t. simpl. destruct (decide (p = 22)); reflexivity.
  - reflexivity.
  - reflexivity.
  - reflexivity.
  - simpl. lia.
  - simpl. lia.
Defined.

Example scan_5_10 :
  ∃ results,
    (scan_range lab "10.0.0.1" 10 scan_ports_start_from_port boot).2
    = Returns results
    ∧ keys results = [0; 1; 2; 3; 4; 5; 6; 7; 8; 9; 10].
Proof. eexists. split; vm_compute; reflexivity. Qed.

(** ** C2: interrupting and resuming *)

(** C2 (as the code has it).  The specification asks that a resumed scan
    continues at the interruption cursor and probes no port twice.
    [current_port] is set to the start port once and never advanced, and the
    dictionary of the interrupted scan is lost with it: scanning [[1, 100]],
    interrupting once port 50 has completed and answering [c] runs the whole
    of [[1, 100]] again, so the ports 1 to 50 are probed twice. *)
Theorem resume_restarts_at_start_port :
  let run := main lab (cli 1 100) [Line "c"] (boot_interrupted 51) in
  run.2 = Returns () ∧
  probed (trace run.1) = range 0 51 ++ range 1 101 ∧
  tasks_created (trace run.1) = range 0 101 ++ range 1 101 ∧
  length (filter (λ p, p = 50) (probed (trace run.1))) = 2%nat.
Proof. vm_compute. done. Qed.

(** ** C3: the [--common] flag *)

(** C3 (as the code has it).  The specification asks that [--common] scans
    the eleven ports of the table and no other.  The code only takes the
    least and the greatest key of the table as the new start and end port and
    then scans the whole span, from the default [start_from_port]: every
    port of [[0, 27017]] is probed, port 1 among them, which the table does
    not list. *)
Theorem common_flag_scans_whole_span env (args : Namespace) typed w :
  well_behaved env → sigint w = [] → ip_address env (host args) = true →
  common args = true →
  ∃ out evs,
    main env args typed w = (log w out evs, Returns ()) ∧
    probed evs ≡ₚ range 0 27018 ∧
    ¬ probed evs ≡ₚ elements (dom COMMON_PORTS) ∧
    1 ∈ probed evs ∧ 1 ∉ dom COMMON_PORTS.
Proof.
  intros Henv Hq Hip Hc.
  destruct (main_common_run env Henv args typed w Hc Hip Hq) as (out & Hrun & _).
  eexists _, _. split; [exact Hrun|].
  rewrite probed_segments. fold (completion_order env 27017 0).
  assert (Hperm : completion_order env 27017 0 ≡ₚ range 0 27018)
    by (rewrite completion_order_perm by (done || lia); done).
  split_and!.
  - done.
  - intros Hp. rewrite Hperm in Hp. apply Permutation_length in Hp.
    rewrite range_length in Hp.
    assert (length (elements (dom COMMON_PORTS)) = 11%nat) as Hlen
      by (vm_compute; reflexivity).
    rewrite Hlen in Hp. lia.
  - rewrite Hperm. apply elem_of_range. lia.
  - apply not_elem_of_dom. reflexivity.
Qed.

Lemma common_flag_scans_whole_span_witness :
  ∃ out evs,
    main lab {| host := "10.0.0.1"; start_port := 1; end_port := 65535;
                output := None; timeout := 1; common := true |} [] boot
    = (log boot out evs, Returns ()) ∧
    probed evs ≡ₚ range 0 27018 ∧
    ¬ probed evs ≡ₚ elements (dom COMMON_PORTS) ∧
    1 ∈ probed evs ∧ 1 ∉ dom COMMON_PORTS.
Proof.
  apply (common_flag_scans_whole_span lab).
  - split; [reflexivity|]. intros h p t. simpl. destruct (decide (p = 22)); reflexivity.
  - reflexivity.
  - reflexivity.
  - reflexivity.
Defined.

(** ** C4: one probe *)

(** C4 fails as stated.  A probe that is cancelled while it connects raises
    [CancelledError], which no clause catches; a probe whose connection
    succeeded and whose close failed does not leave [open]. *)
Lemma probe_contract_broken :
  ¬ probe_contract (lab_with cancelled) "10.0.0.1" 80 [] 1 boot ∧
  ¬ probe_contract (lab_with reset_on_close) "10.0.0.1" 80 [] 1 boot.
Proof.
  split; intros (w' & results' & Hrun & Hget).
  - vm_compute in Hrun. discriminate.
  - vm_compute in Hrun. injection Hrun as _ <-. vm_compute in Hget. discriminate.
Qed.

(** C4 (amended).  When the connection attempt fails with an [Exception],
    or succeeds and the connection is then closed without an exception, the
    probe returns and has recorded [open] with the service name of the table
    (["Unknown"] when the port is not listed), [closed] for a timeout or a
    refusal, and [error] with the text of the exception otherwise. *)
Theorem probe_contract_holds env host port results t w :
  match open_connection (network env host port t) with
  | Some e => is_Exception e = true
  | None => writer_close (network env host port t) = None
            ∧ writer_wait_closed (network env host port t) = None
  end →
  probe_contract env host port results t w.
Proof.
  intros Ha. unfold probe_contract.
  assert (Hc : contained (network env host port t) = true).
  { unfold contained, first_exn.
    destruct (open_connection _) as [e|]; [done|]. destruct Ha as [-> ->]. done. }
  rewrite scan_port_run by done. eexists _, _. split; [done|].
  rewrite get_opt_setitem_eq. f_equal. unfold verdict, first_exn.
  destruct (open_connection _) as [e|].
  - by destruct e.
  - destruct Ha as [-> ->]. done.
Qed.

Lemma probe_contract_holds_witness :
  probe_contract lab "10.0.0.1" 22 [] 1 boot ∧
  probe_contract lab "10.0.0.1" 23 [] 1 boot.
Proof.
  split.
  - apply (probe_contract_holds lab "10.0.0.1" 22 [] 1 boot). simpl. split; reflexivity.
  - apply (probe_contract_holds lab "10.0.0.1" 23 [] 1 boot). simpl. reflexivity.
Defined.

(** ** C10: a close that fails *)

(** C10 fails as stated.  A timeout raised while the connection is closed is
    caught by the first clause, which records [closed]; a cancellation is
    caught by neither clause. *)
Lemma close_failure_not_always_error :
  ¬ close_failure_is_error (lab_with timeout_on_close) "10.0.0.1" 80 [] 1 boot ∧
  ¬ close_failure_is_error (lab_with cancelled_on_close) "10.0.0.1" 80 [] 1 boot.
Proof.
  split; intros Hclaim;
    destruct Hclaim as (w' & results' & detail & Hrun & Hget);
    [reflexivity | by eexists | | reflexivity | by eexists |].
  - vm_compute in Hrun. injection Hrun as _ <-. vm_compute in Hget. discriminate.
  - vm_compute in Hrun. discriminate.
Qed.

(** C10 (amended).  When the connection succeeded and closing it raised an
    [Exception], the [open] entry of the port is overwritten: with [closed]
    when the exception is a timeout or a refusal, with [error] and the text of
    the exception otherwise.  Either way the port is no longer reported
    open. *)
Theorem close_failure_overwrites_open env host port results t w e :
  open_connection (network env host port t) = None →
  close_exn (network env host port t) = Some e →
  is_Exception e = true →
  ∃ w' results',
    scan_port env host port results t w = (w', Returns results') ∧
    get_opt port results'
    = Some (if decide (e = TimeoutError ∨ e = ConnectionRefusedError)
            then closed_entry else error_entry (str_exn e)) ∧
    get_opt port results' ≠ Some (open_entry port).
Proof.
  intros Ho Hcl He.
  assert (Hf : first_exn (network env host port t) = Some e)
    by (unfold first_exn; rewrite Ho; exact Hcl).
  rewrite scan_port_run by (unfold contained; by rewrite Hf).
  eexists _, _. split; [done|].
  rewrite get_opt_setitem_eq. unfold verdict. rewrite Hf.
  split; [|by destruct e].
  f_equal. destruct e; simpl in *; try done;
    by (rewrite decide_True by auto) || (rewrite decide_False by (intros [?|?]; done)).
Qed.

Lemma close_failure_overwrites_open_witness :
  ∃ w' results',
    scan_port (lab_with reset_on_close) "10.0.0.1" 80 [] 1 boot = (w', Returns results') ∧
    get_opt 80 results'
    = Some (if decide (OSError "Connection reset by peer" = TimeoutError
                       ∨ OSError "Connection reset by peer" = ConnectionRefusedError)
            then closed_entry else error_entry (str_exn (OSError "Connection reset by peer"))) ∧
    get_opt 80 results' ≠ Some (open_entry 80).
Proof.
  apply (close_failure_overwrites_open (lab_with reset_on_close) "10.0.0.1" 80 [] 1 boot
           (OSError "Connection reset by peer")); reflexivity.
Defined.

(** ** C5: the batches *)

(** C5.  A scan of the [R] ports from [s] to [e] goes through
    [ceil(R / 1000)] batches that are consecutive slices of the range; the
    first holds [min(1000, R)] ports, every batch but the last holds 1000 and
    the last holds the rest.  The run is the sequence of the batches' runs:
    the tasks of a batch are created, its probes all complete, and only then
    does the next batch begin. *)
Theorem batches_partition env host e s w :
  well_behaved env → sigint w = [] → s ≤ e →
  let R := e - s + 1 in
  let bs := batches e s in
  concat bs = range s (e + 1) ∧
  Z.of_nat (length bs) = ceil_div R 1000 ∧
  (∀ b, head bs = Some b → Z.of_nat (length b) = Z.min 1000 R) ∧
  (∀ i b, bs !! i = Some b → (S i < length bs)%nat → length b = 1000%nat) ∧
  (∀ b, last bs = Some b →
        Z.of_nat (length b) = R - 1000 * (ceil_div R 1000 - 1)) ∧
  ∃ results,
    scan_range env host e s w
    = (log w [] (concat (segment env host <$> bs)), Returns results) ∧
    Forall (λ b, tasks_created (segment env host b) = b
                 ∧ probed (segment env host b) ≡ₚ b) bs.
Proof.
  intros Henv Hq Hv R bs.
  pose proof (batches_length e s Hv) as Hlen.
  pose proof (batch_count e s Hv) as Hcount.
  pose proof (batch_count_bounds e s Hv) as Hbounds.
  fold R in Hlen, Hcount, Hbounds. fold bs in Hlen.
  assert (HR : 0 < R) by (unfold R; lia).
  split_and!.
  - by apply concat_batches.
  - congruence.
  - intros b Hb. rewrite head_lookup in Hb.
    apply (batches_lookup e s Hv) in Hb as [Hi ->].
    rewrite (chunk_length e s Hv) by done. fold R. lia.
  - intros i b Hb Hi.
    apply (batches_lookup e s Hv) in Hb as [Hin ->].
    apply Nat2Z.inj. rewrite (chunk_length e s Hv) by done. fold R.
    destruct (Z.min_spec 1000 R) as [[? Hmin]|[? Hmin]];
      rewrite Hmin in *; nia.
  - intros b Hb. rewrite last_lookup in Hb.
    apply (batches_lookup e s Hv) in Hb as [Hin ->].
    rewrite (chunk_length e s Hv) by done. fold R. fold bs.
    rewrite <- Hcount.
    destruct (Z.min_spec 1000 R) as [[? Hmin]|[? Hmin]];
      rewrite Hmin in *; nia.
  - eexists. split; [by apply scan_range_completes|].
    apply Forall_forall. intros b _. unfold segment. split.
    + by rewrite tasks_created_app, tasks_created_tasks, tasks_created_probes, app_nil_r.
    + rewrite probed_app, probed_tasks, probed_probes. apply Henv.
Qed.

Lemma batches_partition_witness :
  let R := 2500 - 1 + 1 in
  let bs := batches 2500 1 in
  concat bs = range 1 (2500 + 1) ∧
  Z.of_nat (length bs) = ceil_div R 1000 ∧
  (∀ b, head bs = Some b → Z.of_nat (length b) = Z.min 1000 R) ∧
  (∀ i b, bs !! i = Some b → (S i < length bs)%nat → length b = 1000%nat) ∧
  (∀ b, last bs = Some b →
        Z.of_nat (length b) = R - 1000 * (ceil_div R 1000 - 1)) ∧
  ∃ results,
    scan_range lab "10.0.0.1" 2500 1 boot
    = (log boot [] (concat (segment lab "10.0.0.1" <$> bs)), Returns results) ∧
    Forall (λ b, tasks_created (segment lab "10.0.0.1" b) = b
                 ∧ probed (segment lab "10.0.0.1" b) ≡ₚ b) bs.
Proof.
  apply (batches_partition lab "10.0.0.1" 2500 1 boot).
  - split; [reflexivity|]. intros h p t. simpl. destruct (decide (p = 22)); reflexivity.
  - reflexivity.
  - lia.
Defined.

Example batches_2500 : length <$> batches 2500 1 = [1000; 1000; 500]%nat.
Proof. vm_compute. reflexivity. Qed.

Example batches_small : batches 10 5 = [[5; 6; 7; 8; 9; 10]].
Proof. vm_compute. reflexivity. Qed.

(** ** C6: validation of the port range *)

(** C6 fails as stated.  With [--common] the start and end port of the
    command line are replaced before they are validated: [-s 0 -e 65536
    --common] is not rejected, the scan runs. *)
Lemma common_flag_skips_validation :
  let args := {| host := "10.0.0.1"; start_port := 0; end_port := 65536;
                 output := None; timeout := 1; common := true |} in
  out_of_range args ∧ ¬ rejected lab args [] boot.
Proof.
  intros args. split; [left; simpl; lia|].
  intros (msg & Hrun & _).
  destruct (main_common_run lab lab_well_behaved args [] boot) as (out & Hrun' & _);
    [done..|].
  rewrite Hrun' in Hrun.
  apply (f_equal (λ r, probed (trace r.1))) in Hrun.
  cbv beta in Hrun. cbn [fst trace log boot app] in Hrun.
  rewrite probed_segments in Hrun. fold (completion_order lab 27017 0) in Hrun.
  apply (f_equal length) in Hrun.
  rewrite (completion_order_perm lab lab_well_behaved 27017 0), range_length in Hrun by lia.
  change (length (probed [])) with O in Hrun. lia.
Qed.

(** C6 (amended).  Without [--common], arguments with a start port below 1,
    an end port above 65535 or a start port above the end port make the
    program print a validation message and return without issuing any
    probe. *)
Theorem out_of_range_rejected env (args : Namespace) typed w :
  common args = false → out_of_range args → rejected env args typed w.
Proof.
  intros Hc Hout. unfold rejected, main. rewrite Hc.
  rewrite (bind_returns _ _ _ _ _ (ret_run args w)).
  destruct (decide (start_port args < 1 ∨ end_port args > 65535)) as [Hr|Hr].
  - eexists. rewrite print_run. split; [done | by left].
  - rewrite decide_True by (unfold out_of_range in Hout; lia).
    eexists. rewrite print_run. split; [done | by right].
Qed.

Lemma out_of_range_rejected_witness :
  rejected lab (cli 0 100) [] boot ∧
  rejected lab (cli 1 65536) [] boot ∧
  rejected lab (cli 200 100) [] boot.
Proof.
  split_and!.
  - apply (out_of_range_rejected lab (cli 0 100) [] boot); [reflexivity|].
    left. simpl. lia.
  - apply (out_of_range_rejected lab (cli 1 65536) [] boot); [reflexivity|].
    right. left. simpl. lia.
  - apply (out_of_range_rejected lab (cli 200 100) [] boot); [reflexivity|].
    right. right. simpl. lia.
Defined.

(** ** C7: resolution of the host *)




(** ** C8: the output file *)

(** [save_results] itself writes one line per entry, in the order the
    dictionary holds them. *)
Example save_results_lines :
  fs (save_results lab
        [(22, open_entry 22); (21, closed_entry); (7, error_entry "boom")]
        "out.txt" boot).1 !! "out.txt"
  = Some ("Port 22: open" +:+ nl +:+ "Port 21: closed" +:+ nl +:+ "Port 7: error" +:+ nl).
Proof. vm_compute. reflexivity. Qed.

(** C8 (as the code has it).  The specification asks that [-o] makes the
    program write the results to the named file.  [main] never calls [save_results]
    and never reads [args.output]: whatever the arguments, the keyboard and
    the interrupts, a run leaves every file as it was. *)
Theorem output_option_ignored env args typed w :
  fs (main env args typed w).1 = fs w.
Proof. apply (keeps_main env args typed w). Qed.

Example output_file_not_written :
  fs (main lab {| host := "10.0.0.1"; start_port := 20; end_port := 25;
                  output := Some "out.txt"; timeout := 1; common := false |}
           [] boot).1 !! "out.txt" = None.
Proof. by rewrite (proj1 (keeps_main lab _ [] boot)). Qed.

(** ** C9: the timeout of a probe *)

(** C9 (as the code has it).  The specification asks that the value given
    with [-t] bounds every probe.  [main] never reads [args.timeout] and
    [scan_ports] calls [scan_port] without a timeout: whatever the arguments,
    every connection attempt of a run is made under the default timeout of
    [scan_port], 1. *)
Theorem timeout_option_ignored env args typed w :
  grows default_timeout_event w (main env args typed w).1.
Proof. apply keeps_main. Qed.

Example timeout_5_probes_with_1 :
  trace (main lab {| host := "10.0.0.1"; start_port := 1; end_port := 2;
                     output := None; timeout := 5; common := false |}
              [] boot).1
  = [CreateTask 0; CreateTask 1; CreateTask 2;
     OpenConnection "10.0.0.1" 0 1; OpenConnection "10.0.0.1" 1 1;
     OpenConnection "10.0.0.1" 2 1].
Proof. vm_compute. reflexivity. Qed.

(** * Further properties *)

(** ** What a run yields *)

Section Yields.
Context {A B : Type}.

Lemma yields_ret (Post : A → Prop) Exc (a : A) : Post a → yields Post Exc (mret a : M A).
Proof. intros Ha w. done. Qed.

Lemma yields_raise (Post : A → Prop) (Exc : exn → Prop) e :
  Exc e → yields Post Exc (raise e : M A).
Proof. intros He w. done. Qed.

Lemma yields_bind (P : A → Prop) (Q : B → Prop) Exc (m : M A) (k : A → M B) :
  yields P Exc m → (∀ a, P a → yields Q Exc (k a)) → yields Q Exc (m ≫= k).
Proof.
  intros Hm Hk w. rewrite bind_run. specialize (Hm w).
  destruct (m w) as [w' [a|e]]; simpl in *; [|done]. by apply Hk.
Qed.

Lemma yields_weaken (P P' : A → Prop) (E E' : exn → Prop) (m : M A) :
  (∀ a, P a → P' a) → (∀ e, E e → E' e) → yields P E m → yields P' E' m.
Proof.
  intros HP HE Hm w. specialize (Hm w). destruct (m w).2; auto.
Qed.

Lemma yields_except (P : A → Prop) (E E' : exn → Prop) (m h : M A) :
  yields P E m → (∀ e, E e → e = KeyboardInterrupt ∨ E' e) → yields P E' h →
  yields P E' (except_KeyboardInterrupt m h).
Proof.
  intros Hm HE Hh w. unfold except_KeyboardInterrupt. specialize (Hm w).
  destruct (m w) as [w' [a|e]]; simpl in *; [done|].
  destruct (HE e Hm) as [->|He]; [apply Hh|].
  destruct e; simpl; try done. apply Hh.
Qed.
End Yields.

Lemma yields_print (Post : unit → Prop) Exc s : Post () → yields Post Exc (print s).
Proof. intros HP w. done. Qed.

Lemma yields_emit (Post : unit → Prop) Exc e : Post () → yields Post Exc (emit e).
Proof. intros HP w. done. Qed.

Lemma yields_check_signals (Post : unit → Prop) (Exc : exn → Prop) :
  Post () → Exc KeyboardInterrupt → yields Post Exc check_signals.
Proof.
  intros HP HE w. unfold check_signals. by destruct (sigint w) as [|[|k] rest].
Qed.

(** *** The dictionary stays well formed *)

Lemma well_formed_nil : well_formed [].
Proof. split; [apply NoDup_nil_2 | apply Forall_nil_2]. Qed.

Lemma Forall_setitem {V} (P : Z * V → Prop) (k : Z) (v : V) (d : dict Z V) :
  P (k, v) → Forall P d → Forall P (setitem k v d).
Proof.
  intros Hkv. induction 1 as [|[k' v'] d Hx Hd IH]; simpl.
  - by repeat constructor.
  - case_decide; constructor; auto.
Qed.

Lemma NoDup_keys_setitem {V} (k : Z) (v : V) (d : dict Z V) :
  NoDup (keys d) → NoDup (keys (setitem k v d)).
Proof.
  intros Hnd. destruct (decide (k ∈ keys d)) as [Hin|Hnin].
  - by rewrite keys_setitem_present.
  - rewrite keys_setitem_fresh by done. apply NoDup_app. split_and!; [done| |].
    + intros x Hx Hx'. apply list_elem_of_singleton in Hx'. by subst.
    + apply NoDup_singleton.
Qed.

Lemma well_formed_setitem port v results :
  well_formed_entry v → well_formed results → well_formed (setitem port v results).
Proof.
  intros Hv [Hnd Hall]. split; [by apply NoDup_keys_setitem|].
  by apply Forall_setitem.
Qed.

Lemma well_formed_open port : well_formed_entry (open_entry port).
Proof. exists "open". split; [done|]. by left. Qed.

Lemma well_formed_caught e : well_formed_entry (caught_entry e).
Proof.
  destruct e; simpl;
    ((exists "closed"; split; [done|]; right; by left)
     || (exists "error"; split; [done|]; right; right; by left)).
Qed.

Section Invariant.
Variable env : Env.


Lemma yields_scan_port_except port results e :
  well_formed results →
  yields well_formed not_Exception (scan_port_except port results e).
Proof.
  intros Hr w. unfold scan_port_except.
  pose proof (well_formed_setitem port _ _ (well_formed_caught e) Hr) as Hc.
  destruct e; simpl in *; done.
Qed.

Lemma yields_scan_port host port results t :
  well_formed results →
  yields well_formed not_Exception (scan_port env host port results t).
Proof.
  intros Hr. unfold scan_port.
  apply (yields_bind (λ _, True)); [by apply yields_emit|]. intros _ _.
  pose proof (well_formed_setitem port _ _ (well_formed_open port) Hr) as Ho.
  destruct (network env host port t) as [[e1|] [e2|] [e3|]]; simpl;
    auto using yields_scan_port_except, yields_ret.
Qed.

Lemma yields_create_tasks (Exc : exn → Prop) ports :
  yields (λ _, True) Exc (create_tasks ports).
Proof. intros w. by rewrite create_tasks_run. Qed.

Lemma yields_await_each host completed results :
  well_formed results →
  yields well_formed not_Exception (await_each env host completed results).
Proof.
  revert results. induction completed as [|p ps IH]; intros results Hr; simpl.
  - by apply yields_ret.
  - apply (yields_bind (λ _, True)); [by apply yields_check_signals|]. intros _ _.
    eapply yields_bind; [by apply yields_scan_port|]. intros results' Hr'. by apply IH.
Qed.

Lemma yields_for_chunks host end_port chunk_size ports results :
  well_formed results →
  yields well_formed not_Exception
         (for_chunks env host end_port chunk_size ports results).
Proof.
  revert results. induction ports as [|p ps IH]; intros results Hr; simpl.
  - by apply yields_ret.
  - eapply yields_bind; [|intros results' Hr'; by apply IH].
    unfold scan_chunk. eapply yields_bind; [apply yields_create_tasks|].
    intros tasks _. by apply yields_await_each.
Qed.

Lemma yields_scan_range host end_port start_from_port :
  start_from_port ≤ end_port →
  yields well_formed not_Exception (scan_range env host end_port start_from_port).
Proof.
  intros Hv. unfold scan_range. rewrite range3_forward by lia.
  apply yields_for_chunks, well_formed_nil.
Qed.

Lemma get_opt_Some_elem {V} (k : Z) (v : V) (d : dict Z V) :
  get_opt k d = Some v → (k, v) ∈ d.
Proof.
  induction d as [|[k' v'] d IH]; simpl; [done|].
  case_decide; [intros [= ->]; subst; by left | intros Hd; right; auto].
Qed.

Lemma yields_print_open (Exc : exn → Prop) ports results open_ports :
  well_formed results → (∀ p, p ∈ ports → p ∈ keys results) →
  yields (λ _, True) Exc (print_open ports results open_ports).
Proof.
  intros [_ Hwf] Hin w.
  destruct (print_open_run ports results open_ports w) as (out & n & ->); [|done].
  intros p Hp. destruct (get_opt p results) as [v|] eqn:Hv.
  - exists v. split; [done|].
    apply get_opt_Some_elem in Hv.
    rewrite Forall_forall in Hwf. destruct (Hwf _ Hv) as (status & Hs & _).
    by exists status.
  - apply get_opt_None in Hv. by apply Hin in Hp.
Qed.

Lemma yields_scan_resolved host start_port end_port start_from_port :
  start_from_port ≤ end_port →
  yields (λ _, True) not_Exception
         (scan_resolved env host start_port end_port start_from_port).
Proof.
  intros Hv. unfold scan_resolved.
  apply (yields_bind (λ _, True)); [by apply yields_print|]. intros _ _.
  eapply yields_bind; [by apply yields_scan_range|]. intros results Hr.
  do 4 (apply (yields_bind (λ _, True)); [by apply yields_print|]; intros _ _).
  apply (yields_bind (λ _, True)).
  { apply yields_print_open; [done|]. intros p Hp. unfold sorted in Hp.
    by rewrite merge_sort_Permutation in Hp. }
  intros open_ports _.
  do 4 (apply (yields_bind (λ _, True)); [by apply yields_print|]; intros _ _).
  by apply yields_ret.
Qed.

Lemma yields_scan_ports host start_port end_port start_from_port :
  start_from_port ≤ end_port →
  yields (λ _, True) (scan_escape env host)
         (scan_ports env host start_port end_port start_from_port).
Proof.
  intros Hv. unfold scan_ports. destruct (ip_address env host) eqn:Hip.
  - eapply yields_weaken; [done | | by apply yields_scan_resolved].
    intros e He. by left.
  - apply (yields_bind (λ _, True)); [by apply yields_emit|]. intros _ _.
    destruct (gethostbyname env host) as [addr|e] eqn:Hdns.
    + eapply yields_weaken; [done | | by apply yields_scan_resolved].
      intros e He. by left.
    + assert (Hraise : (∀ msg, e ≠ gaierror msg) →
                yields (λ _ : Z, True) (scan_escape env host) (raise e)).
      { intros Hne. apply yields_raise. right. by split_and!. }
      destruct e; try (apply Hraise; by intros ?).
      apply (yields_bind (λ _, True)); [by apply yields_print|]. intros _ _.
      by apply yields_ret.
Qed.

Lemma yields_prompt (args : Namespace) current_port typed :
  current_port ≤ end_port args →
  yields (λ _, True) (may_escape env (host args))
         (prompt env args current_port typed).
Proof.
  intros Hv.
  assert (Hforced : yields (λ _ : (), True) (may_escape env (host args))
            (print (nl +:+ "Forced exit.") ;; raise (SystemExit 1))).
  { apply (yields_bind (λ _, True)); [by apply yields_print|]. intros _ _.
    apply yields_raise. right. by left. }
  induction typed as [|[s|] typed IH]; simpl.
  - apply (yields_bind (λ _, True)); [by apply yields_print|]. intros _ _.
    apply yields_raise. by left.
  - apply (yields_bind (λ _, True)); [by apply yields_print|]. intros _ _.
    repeat case_decide.
    + apply (yields_bind (λ _, True)); [by apply yields_print|]. intros _ _.
      apply yields_raise. right. by left.
    + eapply (yields_except _ (scan_escape env (host args))); [| |exact Hforced].
      * apply (yields_bind (λ _, True)); [by apply yields_print|]. intros _ _.
        eapply yields_bind; [by apply yields_scan_ports|]. intros ? _.
        by apply yields_ret.
      * intros e He. right. by right.
    + apply (yields_bind (λ _, True)); [by apply yields_print|]. intros _ _.
      apply IH.
  - apply (yields_bind (λ _, True)); [by apply yields_print|]. intros _ _.
    exact Hforced.
Qed.

Lemma yields_main args typed :
  yields (λ _, True) (may_escape env (host args)) (main env args typed).
Proof.
  unfold main.
  apply (yields_bind (λ a : Namespace,
           host a = host args ∧
           (¬ (start_port a < 1 ∨ end_port a > 65535) →
            ¬ start_port a > end_port a → 1 ≤ start_port a ≤ end_port a))).
  - destruct (common args).
    + rewrite common_ports_sorted. apply yields_ret. simpl. split; [done | lia].
    + apply yields_ret. split; [done | lia].
  - intros a [Hhost Ha]. case_decide; [by apply yields_print|].
    case_decide; [by apply yields_print|].
    specialize (Ha ltac:(done) ltac:(done)). rewrite <- Hhost.
    eapply (yields_except _ (scan_escape env (host a))).
    + eapply yields_bind; [apply yields_scan_ports|].
      * unfold scan_ports_start_from_port. lia.
      * intros ? _. by apply yields_ret.
    + intros e He. right. by right.
    + apply (yields_bind (λ _, True)); [by apply yields_print|]. intros _ _.
      apply yields_prompt. lia.
Qed.
End Invariant.

(** X1.  Whatever the environment and the interrupts, the dictionary a
    scan returns holds no port twice, and every entry in it has a status
    that is ["open"], ["closed"] or ["error"]. *)
Theorem scan_results_well_formed env host end_port start_from_port w w' results :
  scan_range env host end_port start_from_port w = (w', Returns results) →
  well_formed results.
Proof.
  intros Hrun. unfold scan_range in Hrun.
  destruct (range3 _ _ _) as [ports|e]; [|done].
  pose proof (yields_for_chunks env host end_port
                (Z.min 1000 (end_port - start_from_port + 1)) ports []
                well_formed_nil w) as Hy.
  by rewrite Hrun in Hy.
Qed.

Lemma scan_results_well_formed_witness :
  ∃ w' results,
    scan_range lab "10.0.0.1" 10 5 boot = (w', Returns results)
    ∧ well_formed results.
Proof.
  eexists _, _. split; [vm_compute; reflexivity|].
  eapply (scan_results_well_formed lab "10.0.0.1" 10 5 boot).
  vm_compute. reflexivity.
Defined.

(** X2.  No exception of a probe, no [KeyError] of the report and no
    [ValueError] of the chunking ever leaves [main]: a run that raises ends
    with [EOFError] at the prompt, with an exception that is no [Exception]
    ([SystemExit] of the prompt, or what the environment raised), or with
    what the resolver raised for the host, other than [socket.gaierror]. *)
Theorem main_escapes env (args : Namespace) typed w e :
  (main env args typed w).2 = Raises e →
  e = EOFError ∨ is_Exception e = false
  ∨ (ip_address env (host args) = false
     ∧ gethostbyname env (host args) = Raises e
     ∧ ∀ msg, e ≠ gaierror msg).
Proof.
  intros He. pose proof (yields_main env args typed w) as Hy.
  rewrite He in Hy. exact Hy.
Qed.

Lemma main_escapes_witness :
  SystemExit 0 = EOFError ∨ is_Exception (SystemExit 0) = false
  ∨ (ip_address lab (host (cli 1 3)) = false
     ∧ gethostbyname lab (host (cli 1 3)) = Raises (SystemExit 0)
     ∧ ∀ msg, SystemExit 0 ≠ gaierror msg).
Proof.
  apply (main_escapes lab (cli 1 3) [Line "q"] (boot_interrupted 1)).
  vm_compute. reflexivity.
Defined.

Example unencodable_host_escapes :
  (main lab {| host := "a..b"; start_port := 1; end_port := 10; output := None;
               timeout := 1; common := false |} [] boot).2
  = Raises (ValueError "encoding with 'idna' codec failed").
Proof. reflexivity. Qed.

Lemma append_assoc (a b c : string) : (a +:+ b) +:+ c = a +:+ (b +:+ c).
Proof.
  induction a as [|x a IH]; [done|].
  change (String x ((a +:+ b) +:+ c) = String x (a +:+ (b +:+ c))). by f_equal.
Qed.

Lemma append_nil_r (a : string) : a +:+ "" = a.
Proof.
  induction a as [|x a IH]; [done|].
  change (String x (a +:+ "") = String x a). by f_equal.
Qed.

Lemma write_items_run (its : list (Z * entry)) (text : string) :
  Forall (λ kv, is_Some (get_opt "status" kv.2)) its →
  write_items its text = (text +:+ file_text its, Returns ()).
Proof.
  intros Hall. revert text. induction Hall as [|[port data] its [status Hs] _ IH];
    intros text; simpl.
  - by rewrite append_nil_r.
  - unfold getitem, get. simpl in Hs. rewrite Hs. simpl.
    rewrite IH. by rewrite !append_assoc.
Qed.

Lemma write_items_stops (good its : list (Z * entry)) port data (text : string) :
  Forall (λ kv, is_Some (get_opt "status" kv.2)) good →
  get_opt "status" data = None →
  write_items (good ++ (port, data) :: its) text
  = (text +:+ file_text good, Raises KeyError).
Proof.
  intros Hall Hnone. revert text.
  induction Hall as [|[p d] good [status Hs] _ IH]; intros text; simpl.
  - unfold getitem. rewrite Hnone. by rewrite append_nil_r.
  - unfold getitem, get. simpl in Hs. rewrite Hs. simpl.
    rewrite IH. by rewrite !append_assoc.
Qed.

Lemma save_results_run env results filename w :
  Forall (λ kv, is_Some (get_opt "status" kv.2)) results →
  save_results env results filename w
  = match open_for_writing env filename with
    | Some e => (w, Raises e)
    | None => write_file filename (file_text results) w
    end.
Proof.
  intros Hall. unfold save_results, items.
  destruct (open_for_writing env filename); [done|].
  by rewrite write_items_run.
Qed.

(** X6.  When every entry has a status, [save_results] either fails to
    open the named file, raises what [open] raised and writes nothing, or
    replaces the content of the file by one line ["Port {port}: {status}"]
    per entry, in the order the dictionary holds them, and touches nothing
    else. *)
Theorem save_results_writes env results filename w :
  Forall (λ kv, is_Some (get_opt "status" kv.2)) results →
  save_results env results filename w
  = match open_for_writing env filename with
    | Some e => (w, Raises e)
    | None => write_file filename (file_text results) w
    end.
Proof. apply save_results_run. Qed.

Lemma save_results_writes_witness :
  save_results lab [(22, open_entry 22); (21, closed_entry)] "out.txt" boot
  = match open_for_writing lab "out.txt" with
    | Some e => (boot, Raises e)
    | None => write_file "out.txt"
                (file_text [(22, open_entry 22); (21, closed_entry)]) boot
    end
  ∧ save_results lab [(22, open_entry 22); (21, closed_entry)] "missing/out.txt" boot
    = match open_for_writing lab "missing/out.txt" with
      | Some e => (boot, Raises e)
      | None => write_file "missing/out.txt"
                  (file_text [(22, open_entry 22); (21, closed_entry)]) boot
      end.
Proof.
  split.
  - apply (save_results_writes lab [(22, open_entry 22); (21, closed_entry)]
             "out.txt" boot).
    repeat constructor; simpl; eexists; reflexivity.
  - apply (save_results_writes lab [(22, open_entry 22); (21, closed_entry)]
             "missing/out.txt" boot).
    repeat constructor; simpl; eexists; reflexivity.
Defined.

Example save_results_cannot_open :
  save_results lab [(22, open_entry 22)] "missing/out.txt" boot
  = (boot, Raises (OSError "[Errno 2] No such file or directory: 'missing/out.txt'")).
Proof. reflexivity. Qed.

(** X7.  When the file can be opened, [save_results] raises [KeyError] at
    the first entry without a status; the file then holds the lines of the
    entries before it. *)
Theorem save_results_missing_status env good port data its filename w :
  open_for_writing env filename = None →
  Forall (λ kv, is_Some (get_opt "status" kv.2)) good →
  get_opt "status" data = None →
  save_results env (good ++ (port, data) :: its) filename w
  = ((write_file filename (file_text good) w).1, Raises KeyError).
Proof.
  intros Hopen Hall Hnone. unfold save_results, items. rewrite Hopen.
  by rewrite write_items_stops.
Qed.

Lemma save_results_missing_status_witness :
  save_results lab
    ([(22, open_entry 22)] ++ (21, [("service", "FTP Control")]) :: [(20, closed_entry)])
    "out.txt" boot
  = ((write_file "out.txt" (file_text [(22, open_entry 22)]) boot).1, Raises KeyError).
Proof.
  apply (save_results_missing_status lab [(22, open_entry 22)] 21
           [("service", "FTP Control")] [(20, closed_entry)] "out.txt" boot).
  - reflexivity.
  - repeat constructor; simpl; eexists; reflexivity.
  - reflexivity.
Defined.

(** X8.  The dictionary of any scan that returned can be saved to a file
    that can be opened: [save_results] does not raise on it and the file
    then holds one line per scanned port. *)
Theorem scan_results_can_be_saved env host end_port start_from_port w w' results filename w2 :
  scan_range env host end_port start_from_port w = (w', Returns results) →
  open_for_writing env filename = None →
  save_results env results filename w2 = write_file filename (file_text results) w2
  ∧ fs (save_results env results filename w2).1 !! filename = Some (file_text results).
Proof.
  intros Hrun Hopen. apply scan_results_well_formed in Hrun as [_ Hwf].
  assert (save_results env results filename w2
          = write_file filename (file_text results) w2) as ->.
  { rewrite save_results_run, Hopen; [done|]. eapply Forall_impl; [exact Hwf|].
    intros kv (status & Hs & _). by exists status. }
  split; [done|]. simpl. apply lookup_insert_eq.
Qed.

Lemma scan_results_can_be_saved_witness :
  ∃ w' results,
    scan_range lab "10.0.0.1" 23 21 boot = (w', Returns results)
    ∧ save_results lab results "out.txt" w' = write_file "out.txt" (file_text results) w'
    ∧ fs (save_results lab results "out.txt" w').1 !! "out.txt" = Some (file_text results).
Proof.
  eexists _, _. split; [vm_compute; reflexivity|].
  eapply (scan_results_can_be_saved lab "10.0.0.1" 23 21 boot).
  - vm_compute. reflexivity.
  - reflexivity.
Defined.

(** X3.  A probe makes exactly one connection attempt and prints nothing.
    When it returns, the entries of all other ports are what they were and
    the order of the keys is kept, a new port going to the end; when it
    raises, what it raises is no [Exception]. *)
Theorem scan_port_frame env host port results t w :
  ∃ r,
    scan_port env host port results t w
    = (log w [] [OpenConnection host port t], r) ∧
    match r with
    | Returns results' =>
        (∀ q, q ≠ port → get_opt q results' = get_opt q results) ∧
        keys results' = if decide (port ∈ keys results) then keys results
                        else keys results ++ [port]
    | Raises e => is_Exception e = false
    end.
Proof.
  destruct (contained (network env host port t)) eqn:Hc.
  - rewrite scan_port_run by done. eexists. split; [done|]. split.
    + intros q Hq. by apply get_opt_setitem_ne.
    + case_decide; [by apply keys_setitem_present | by apply keys_setitem_fresh].
  - unfold contained in Hc.
    destruct (first_exn (network env host port t)) as [e|] eqn:He; [|done].
    rewrite (scan_port_raises env host port results t w e) by done.
    eexists. split; [done|]. done.
Qed.

(** X9.  A scan whose [start_from_port] lies beyond [end_port] does
    nothing: it raises [ValueError] (a zero step for [range]) when
    [start_from_port] is [end_port + 1], and returns an empty dictionary
    without creating a task otherwise. *)
Theorem scan_range_degenerate env host end_port start_from_port w :
  as_completed env [] = [] → start_from_port > end_port →
  scan_range env host end_port start_from_port w
  = if decide (start_from_port = end_port + 1)
    then (w, Raises (ValueError "range() arg 3 must not be zero"))
    else (w, Returns []).
Proof.
  intros Hnil Hgt. unfold scan_range, range3.
  rewrite Z.min_r by lia.
  case_decide as Hz; [rewrite decide_True by lia; done|].
  rewrite decide_False by lia. rewrite decide_False by lia.
  assert ((start_from_port - (end_port + 1) - (end_port - start_from_port + 1) - 1)
            `div` (- (end_port - start_from_port + 1)) = 1) as ->.
  { symmetry. apply (Z.div_unique_pos _ _ 1 (start_from_port - end_port - 2)); lia. }
  simpl. unfold scan_chunk.
  rewrite range_empty by lia.
  rewrite bind_run, (bind_returns _ _ _ _ _ (create_tasks_run [] w)).
  cbv beta. rewrite Hnil. cbn [await_each].
  by rewrite !ret_run, log_nil.
Qed.

Lemma scan_range_degenerate_witness :
  scan_range lab "10.0.0.1" 10 11 boot
  = (if decide (11 = 10 + 1)
     then (boot, Raises (ValueError "range() arg 3 must not be zero"))
     else (boot, Returns []))
  ∧ scan_range lab "10.0.0.1" 10 20 boot
    = (if decide (20 = 10 + 1)
       then (boot, Raises (ValueError "range() arg 3 must not be zero"))
       else (boot, Returns [])).
Proof.
  split.
  - apply (scan_range_degenerate lab "10.0.0.1" 10 11 boot); [reflexivity | lia].
  - apply (scan_range_degenerate lab "10.0.0.1" 10 20 boot); [reflexivity | lia].
Defined.

(** X10.  [scan_ports] asks the resolver at most once, before anything
    else and only for a host that is no literal address; every connection
    attempt that follows goes to the address of the host, under the default
    timeout; after a failed resolution nothing follows. *)
Theorem scan_ports_events env host start_port end_port start_from_port w :
  ∃ evs,
    trace (scan_ports env host start_port end_port start_from_port w).1
    = trace w ++ (if ip_address env host then [] else [GetHostByName host]) ++ evs
    ∧ Forall (scan_event (address env host)) evs
    ∧ (ip_address env host = false →
       (∃ e, gethostbyname env host = Raises e) → evs = []).
Proof.
  unfold scan_ports, address. destruct (ip_address env host) eqn:Hip.
  - destruct (keeps_scan_resolved env host start_port end_port start_from_port w)
      as (_ & out & evs & _ & Hevs & HP).
    exists evs. split_and!; [exact Hevs | done | done].
  - rewrite (bind_returns _ _ _ _ _ (emit_run _ w)).
    destruct (gethostbyname env host) as [addr|e] eqn:Hdns.
    + destruct (keeps_scan_resolved env addr start_port end_port start_from_port
                  (log w [] [GetHostByName host]))
        as (_ & out & evs & _ & Hevs & HP).
      exists evs. split_and!; [|done|by intros _ [? ?]].
      rewrite Hevs. simpl. by rewrite <- app_assoc.
    + exists []. split_and!; [|by constructor|done].
      destruct e; simpl; by rewrite ?app_nil_r.
Qed.

Lemma scan_ports_events_witness :
  ∃ evs,
    trace (scan_ports lab "no-such-host.invalid" 1 100 0 boot).1
    = trace boot
      ++ (if ip_address lab "no-such-host.invalid" then []
          else [GetHostByName "no-such-host.invalid"]) ++ evs
    ∧ Forall (scan_event (address lab "no-such-host.invalid")) evs
    ∧ evs = [].
Proof.
  destruct (scan_ports_events lab "no-such-host.invalid" 1 100 0 boot)
    as (evs & Htrace & Hevs & Hnone).
  exists evs. split_and!; [exact Htrace | exact Hevs |].
  apply Hnone; [reflexivity | by eexists].
Defined.

(** X11.  At the prompt, every answer that is neither [q] nor [c] (case
    and surrounding blanks apart) is answered with the same message and the
    question is asked again: the answers that follow are read as if the
    invalid ones had not been given. *)
Theorem prompt_skips_invalid env args current_port (bad : list string) typed w :
  Forall (λ s, lower (strip s) ≠ "q" ∧ lower (strip s) ≠ "c") bad →
  prompt env args current_port ((Line <$> bad) ++ typed) w
  = prompt env args current_port typed
      (log w (concat ((λ _, [question; invalid_input]) <$> bad)) []).
Proof.
  intros Hbad. revert w. induction Hbad as [|s bad [Hq Hc] _ IH]; intros w.
  - simpl. by rewrite log_nil.
  - rewrite fmap_cons. simpl app. cbn [prompt].
    rewrite (bind_returns _ _ _ _ _ (print_run _ w)).
    rewrite decide_False by done. rewrite decide_False by done.
    rewrite (bind_returns _ _ _ _ _ (print_run _ _)).
    rewrite IH. by rewrite !log_log.
Qed.

Lemma prompt_skips_invalid_witness :
  prompt lab (cli 1 100) 1 ((Line <$> ["yes"; " x "]) ++ [Line "q"]) boot
  = prompt lab (cli 1 100) 1 [Line "q"]
      (log boot (concat ((λ _, [question; invalid_input]) <$> ["yes"; " x "])) []).
Proof.
  apply (prompt_skips_invalid lab (cli 1 100) 1 ["yes"; " x "] [Line "q"] boot).
  repeat constructor; vm_compute; discriminate.
Defined.

Lemma range_cons (a b : Z) : a < b → range a b = a :: range (a + 1) b.
Proof.
  intros Hab. rewrite <- (range_app a (a + 1) b) by lia.
  unfold range at 1. replace (Z.to_nat (a + 1 - a)) with 1%nat by lia.
  simpl. f_equal. f_equal. lia.
Qed.

Lemma Sorted_range (a b : Z) : Sorted Z.le (range a b).
Proof.
  remember (Z.to_nat (b - a)) as n eqn:Hn. revert a Hn.
  induction n as [|n IH]; intros a Hn.
  - rewrite range_empty by lia. constructor.
  - rewrite range_cons by lia. constructor; [apply IH; lia|].
    destruct (decide (a + 1 < b)).
    + rewrite range_cons by lia. constructor. lia.
    + rewrite range_empty by lia. constructor.
Qed.

Lemma sorted_perm_range (l : list Z) (a b : Z) :
  l ≡ₚ range a b → sorted l = range a b.
Proof.
  intros Hl. unfold sorted. apply (Sorted_unique Z.le).
  - apply Sorted_merge_sort. apply _.
  - apply Sorted_range.
  - by rewrite merge_sort_Permutation.
Qed.

Section Report.
Variable env : Env.
Hypothesis Henv : well_behaved env.
Variables (host : string) (end_port start_from_port : Z).
Hypothesis valid : start_from_port ≤ end_port.

Lemma get_opt_scanned_range p :
  get_opt p (scanned env host end_port start_from_port)
  = if decide (start_from_port ≤ p ≤ end_port)
    then Some (verdict (network env host p scan_port_timeout) p)
    else None.
Proof.
  pose proof (keys_scanned env Henv host end_port start_from_port valid) as Hk.
  pose proof (completion_order_perm env Henv end_port start_from_port valid) as Hp.
  case_decide as Hr.
  - apply get_opt_scanned; [done..|]. rewrite Hk, Hp. apply elem_of_range. lia.
  - apply get_opt_None. rewrite Hk, Hp. rewrite elem_of_range. lia.
Qed.

Lemma print_open_scanned ports open_ports w :
  (∀ p, p ∈ ports → start_from_port ≤ p ≤ end_port) →
  print_open ports (scanned env host end_port start_from_port) open_ports w
  = (log w (row <$> filter (answers env host) ports) [],
     Returns (open_ports + Z.of_nat (length (filter (answers env host) ports)))).
Proof.
  revert open_ports w. induction ports as [|p ps IH]; intros open_ports w Hin.
  - simpl. rewrite ret_run, log_nil. do 2 f_equal. lia.
  - cbn [print_open]. unfold getitem at 1.
    rewrite get_opt_scanned_range, decide_True by (apply Hin; left).
    assert (Hps : ∀ q, q ∈ ps → start_from_port ≤ q ≤ end_port)
      by (intros q Hq; apply Hin; by right).
    cbv beta iota. unfold verdict.
    destruct (first_exn (network env host p scan_port_timeout)) as [e|] eqn:He.
    + rewrite filter_cons_False by (unfold answers; by rewrite He).
      assert (getitem "status" (caught_entry e) = Returns "closed"
              ∨ getitem "status" (caught_entry e) = Returns "error") as [->| ->]
        by (destruct e; auto);
        cbv beta iota; (rewrite decide_False by done); by apply IH.
    + rewrite filter_cons_True by done.
      change (getitem "status" (open_entry p)) with (Returns (A:=string) "open").
      cbv beta iota. rewrite decide_True by done.
      rewrite (bind_returns _ _ _ _ _ (print_run _ w)).
      rewrite IH by done. rewrite log_log, fmap_cons. simpl length.
      do 2 f_equal. lia.
Qed.

Lemma scan_resolved_report start_port w :
  sigint w = [] →
  scan_resolved env host start_port end_port start_from_port w
  = (log w (report env host start_port end_port start_from_port)
         (concat (segment env host <$> batches end_port start_from_port)),
     Returns (end_port - start_from_port + 1)).
Proof.
  intros Hq. unfold scan_resolved.
  rewrite (bind_returns _ _ _ _ _ (print_run _ w)).
  rewrite (bind_returns _ _ _ _ _
             (scan_range_completes env Henv host _ _ valid (log w _ _) Hq)).
  repeat (erewrite bind_returns by apply print_run).
  rewrite (sorted_perm_range _ start_from_port (end_port + 1))
    by (rewrite keys_scanned by done; by apply completion_order_perm).
  erewrite bind_returns
    by (apply print_open_scanned; intros p Hp; apply elem_of_range in Hp; lia).
  repeat (erewrite bind_returns by apply print_run).
  rewrite ret_run. repeat rewrite log_log. rewrite len_scanned by done.
  unfold report. f_equal. f_equal.
  cbn [app]. by rewrite ?app_nil_r.
Qed.
End Report.

(** X4.  In a completed scan the entry of every port of the range is
    decided by the probe of that port alone, whatever the order in which the
    probes complete: [open] when the probe met no exception, [closed] when the
    first exception it met was a timeout or a refusal, [error] with the text
    of the exception otherwise; ports outside the range have no entry. *)
Theorem scan_results_by_port env host end_port start_from_port w :
  well_behaved env → sigint w = [] → start_from_port ≤ end_port →
  ∃ w' results,
    scan_range env host end_port start_from_port w = (w', Returns results) ∧
    ∀ p, get_opt p results
         = if decide (start_from_port ≤ p ≤ end_port)
           then Some match first_exn (network env host p scan_port_timeout) with
                     | None => open_entry p
                     | Some TimeoutError | Some ConnectionRefusedError => closed_entry
                     | Some e => error_entry (str_exn e)
                     end
           else None.
Proof.
  intros Henv Hq Hv. eexists _, _. split; [by apply scan_range_completes|].
  intros p. rewrite get_opt_scanned_range by done.
  case_decide; [|done]. unfold verdict.
  destruct (first_exn _) as [e|]; [by destruct e | done].
Qed.

Lemma scan_results_by_port_witness :
  ∃ w' results,
    scan_range lab "10.0.0.1" 25 20 boot = (w', Returns results) ∧
    ∀ p, get_opt p results
         = if decide (20 ≤ p ≤ 25)
           then Some match first_exn (network lab "10.0.0.1" p scan_port_timeout) with
                     | None => open_entry p
                     | Some TimeoutError | Some ConnectionRefusedError => closed_entry
                     | Some e => error_entry (str_exn e)
                     end
           else None.
Proof.
  apply (scan_results_by_port lab "10.0.0.1" 25 20 boot).
  - split; [reflexivity|]. intros h p t. simpl. destruct (decide (p = 22)); reflexivity.
  - reflexivity.
  - lia.
Defined.

(** X5.  A completed scan prints, between the header and the summary, one
    row per port whose probe met no exception, in ascending order of the
    ports and with the service name of the table; the summary gives the
    number of ports scanned and the number of those rows; the function
    returns the number of ports scanned. *)
Theorem completed_scan_report env host start_port end_port start_from_port w :
  well_behaved env → sigint w = [] → start_from_port ≤ end_port →
  scan_resolved env host start_port end_port start_from_port w
  = (log w (report env host start_port end_port start_from_port)
         (concat (segment env host <$> batches end_port start_from_port)),
     Returns (end_port - start_from_port + 1)).
Proof. intros Henv Hq Hv. by apply scan_resolved_report. Qed.

Lemma completed_scan_report_witness :
  scan_resolved lab "10.0.0.1" 20 25 20 boot
  = (log boot (report lab "10.0.0.1" 20 25 20)
         (concat (segment lab "10.0.0.1" <$> batches 25 20)),
     Returns (25 - 20 + 1)).
Proof.
  apply (completed_scan_report lab "10.0.0.1" 20 25 20 boot).
  - split; [reflexivity|]. intros h p t. simpl. destruct (decide (p = 22)); reflexivity.
  - reflexivity.
  - lia.
Defined.

Example report_20_25 :
  report lab "10.0.0.1" 20 25 20
  = [nl +:+ "Starting port scan on 10.0.0.1 from port 20 to 25...";
     nl +:+ "Scan Results:";
     repeat_str "-" 60;
     "Port       Status     Service             ";
     repeat_str "-" 60;
     "22         OPEN       SSH                 ";
     nl +:+ "Scan Summary:";
     "Total ports scanned: 6";
     "Open ports found: 1";
     "Scan completed in 0.00 seconds."].
Proof. vm_compute. reflexivity. Qed.

(** ** After an interrupt *)

Lemma except_interrupted {A} (m h : M A) w w' :
  m w = (w', Raises KeyboardInterrupt) → except_KeyboardInterrupt m h w = h w'.
Proof. intros Hm. unfold except_KeyboardInterrupt. by rewrite Hm. Qed.

(** An interrupt during the first scan brings [main] to the prompt. *)
Lemma main_interrupted env (args : Namespace) typed w :
  interrupted env args w →
  main env args typed w
  = prompt env args (start_port args) typed
      (log (first_scan env args w).1 [nl +:+ "Scan interrupted."] []).
Proof.
  intros [(Hc & Hse & He) Hint]. unfold main. rewrite Hc.
  rewrite (bind_returns _ _ _ _ _ (ret_run args w)).
  rewrite decide_False by lia. rewrite decide_False by lia.
  unfold first_scan in *.
  destruct (scan_ports env (host args) (start_port args) (end_port args)
              scan_ports_start_from_port w) as [w1 r] eqn:Hrun.
  simpl in Hint. subst r.
  erewrite except_interrupted by (by rewrite (bind_raises _ _ _ _ _ Hrun)).
  by rewrite (bind_returns _ _ _ _ _ (print_run _ _)).
Qed.

(** X12.  When the first scan is interrupted and the operator answers [q]
    (in any case, blanks around it ignored), the program prints
    ["Exiting scan."] and exits with status 0; nothing else happens after the
    interrupt. *)
Theorem interrupted_scan_quit env (args : Namespace) s typed w :
  interrupted env args w → lower (strip s) = "q" →
  main env args (Line s :: typed) w
  = (log (first_scan env args w).1
         [nl +:+ "Scan interrupted."; question; "Exiting scan."] [],
     Raises (SystemExit 0)).
Proof.
  intros Hint Hq. rewrite main_interrupted by done. cbn [prompt].
  rewrite (bind_returns _ _ _ _ _ (print_run _ _)).
  rewrite decide_True by done.
  rewrite (bind_returns _ _ _ _ _ (print_run _ _)).
  unfold raise. by rewrite !log_log.
Qed.

Lemma interrupted_scan_quit_witness :
  main lab (cli 1 100) (Line " Q " :: []) (boot_interrupted 51)
  = (log (first_scan lab (cli 1 100) (boot_interrupted 51)).1
         [nl +:+ "Scan interrupted."; question; "Exiting scan."] [],
     Raises (SystemExit 0)).
Proof.
  apply (interrupted_scan_quit lab (cli 1 100) " Q " [] (boot_interrupted 51)).
  - split; [split_and!; [reflexivity | simpl; lia | simpl; lia | simpl; lia]|].
    vm_compute. reflexivity.
  - reflexivity.
Defined.

(** X13.  When the first scan is interrupted and the operator interrupts
    again at the prompt, the program prints ["Forced exit."] and exits with
    status 1; nothing else happens after the first interrupt. *)
Theorem interrupted_scan_forced env (args : Namespace) typed w :
  interrupted env args w →
  main env args (CtrlC :: typed) w
  = (log (first_scan env args w).1
         [nl +:+ "Scan interrupted."; question; nl +:+ "Forced exit."] [],
     Raises (SystemExit 1)).
Proof.
  intros Hint. rewrite main_interrupted by done. cbn [prompt].
  rewrite (bind_returns _ _ _ _ _ (print_run _ _)).
  rewrite (bind_returns _ _ _ _ _ (print_run _ _)).
  unfold raise. by rewrite !log_log.
Qed.

Lemma interrupted_scan_forced_witness :
  main lab (cli 1 100) (CtrlC :: []) (boot_interrupted 51)
  = (log (first_scan lab (cli 1 100) (boot_interrupted 51)).1
         [nl +:+ "Scan interrupted."; question; nl +:+ "Forced exit."] [],
     Raises (SystemExit 1)).
Proof.
  apply (interrupted_scan_forced lab (cli 1 100) [] (boot_interrupted 51)).
  split; [split_and!; [reflexivity | simpl; lia | simpl; lia | simpl; lia]|].
  vm_compute. reflexivity.
Defined.

(** X14.  When the first scan is interrupted and the operator answers
    [c], the program scans the whole range from the start port to the end
    port anew, wherever the interrupt fell: when nothing interrupts that scan
    of a literal address, the run prints its report, makes its connection
    attempts batch after batch, and returns. *)
Theorem interrupted_scan_resumed env (args : Namespace) s typed w :
  interrupted env args w → lower (strip s) = "c" →
  well_behaved env → ip_address env (host args) = true →
  sigint (first_scan env args w).1 = [] →
  main env args (Line s :: typed) w
  = (log (first_scan env args w).1
         (resuming ++ report env (host args) (start_port args) (end_port args)
                             (start_port args))
         (concat (segment env (host args)
                    <$> batches (end_port args) (start_port args))),
     Returns ()).
Proof.
  intros Hint Hc Henv Hip Hq. rewrite main_interrupted by done.
  destruct Hint as [(_ & Hse & _) _]. cbn [prompt].
  rewrite (bind_returns _ _ _ _ _ (print_run _ _)).
  rewrite decide_False by (rewrite Hc; done). rewrite decide_True by done.
  apply except_returns.
  rewrite (bind_returns _ _ _ _ _ (print_run _ _)).
  unfold scan_ports. rewrite Hip.
  erewrite bind_returns
    by (apply (completed_scan_report env); [done | done | lia]).
  by rewrite ret_run, !log_log.
Qed.

Lemma interrupted_scan_resumed_witness :
  main lab (cli 1 100) (Line "c" :: []) (boot_interrupted 51)
  = (log (first_scan lab (cli 1 100) (boot_interrupted 51)).1
         (resuming ++ report lab (host (cli 1 100)) (start_port (cli 1 100))
                             (end_port (cli 1 100)) (start_port (cli 1 100)))
         (concat (segment lab (host (cli 1 100))
                    <$> batches (end_port (cli 1 100)) (start_port (cli 1 100)))),
     Returns ()).
Proof.
  apply (interrupted_scan_resumed lab (cli 1 100) "c" [] (boot_interrupted 51)).
  - split; [split_and!; [reflexivity | simpl; lia | simpl; lia | simpl; lia]|].
    vm_compute. reflexivity.
  - reflexivity.
  - split; [reflexivity|]. intros h p t. simpl. destruct (decide (p = 22)); reflexivity.
  - reflexivity.
  - vm_compute. reflexivity.
Defined.

(** X15.  An interrupt that arrives while the resumed scan runs ends the
    program with ["Forced exit."] and status 1: there is no second prompt,
    and nothing else happens after that interrupt. *)
Theorem resumed_scan_interrupted env (args : Namespace) s typed w :
  interrupted env args w → lower (strip s) = "c" →
  (resumed_scan env args (log (first_scan env args w).1 resuming [])).2
  = Raises KeyboardInterrupt →
  main env args (Line s :: typed) w
  = (log (resumed_scan env args (log (first_scan env args w).1 resuming [])).1
         [nl +:+ "Forced exit."] [],
     Raises (SystemExit 1)).
Proof.
  intros Hint Hc Hsecond. rewrite main_interrupted by done. cbn [prompt].
  rewrite (bind_returns _ _ _ _ _ (print_run _ _)).
  rewrite decide_False by (rewrite Hc; done). rewrite decide_True by done.
  unfold resumed_scan, resuming in *. rewrite !log_log. simpl app.
  destruct (scan_ports env (host args) (start_port args) (end_port args)
              (start_port args)
              (log (first_scan env args w).1
                 [nl +:+ "Scan interrupted."; question; "Resuming scan..."] []))
    as [w2 r] eqn:Hrun.
  simpl in Hsecond. subst r.
  erewrite except_interrupted
    by (rewrite (bind_returns _ _ _ _ _ (print_run _ _)), log_log;
        by rewrite (bind_raises _ _ _ _ _ Hrun)).
  by rewrite (bind_returns _ _ _ _ _ (print_run _ _)).
Qed.

Lemma resumed_scan_interrupted_witness :
  main lab (cli 1 100) (Line "c" :: [])
       {| stdout := []; trace := []; fs := ∅; sigint := [51; 10]%nat |}
  = (log (resumed_scan lab (cli 1 100)
            (log (first_scan lab (cli 1 100)
                    {| stdout := []; trace := []; fs := ∅; sigint := [51; 10]%nat |}).1
                 resuming [])).1
         [nl +:+ "Forced exit."] [],
     Raises (SystemExit 1)).
Proof.
  apply (resumed_scan_interrupted lab (cli 1 100) "c" []
           {| stdout := []; trace := []; fs := ∅; sigint := [51; 10]%nat |}).
  - split; [split_and!; [reflexivity | simpl; lia | simpl; lia | simpl; lia]|].
    vm_compute. reflexivity.
  - reflexivity.
  - vm_compute. reflexivity.
Defined.

(** ** A host given by name *)

(** X16.  A scan of a host that is no literal address and that the resolver
    knows asks the resolver once and then runs as the scan of the address it
    got: the connection attempts, the first line and the report all name the
    address, not the host as it was given. *)
Theorem named_host_scan env host addr start_port end_port start_from_port w :
  well_behaved env → sigint w = [] → start_from_port ≤ end_port →
  ip_address env host = false → gethostbyname env host = Returns addr →
  scan_ports env host start_port end_port start_from_port w
  = (log w (report env addr start_port end_port start_from_port)
         (GetHostByName host
          :: concat (segment env addr <$> batches end_port start_from_port)),
     Returns (end_port - start_from_port + 1)).
Proof.
  intros Henv Hq Hv Hip Hdns. unfold scan_ports. rewrite Hip, Hdns.
  rewrite (bind_returns _ _ _ _ _ (emit_run _ w)).
  rewrite (completed_scan_report env addr) by done.
  by rewrite log_log.
Qed.

Lemma named_host_scan_witness :
  scan_ports lab "scanme.test" 20 25 20 boot
  = (log boot (report lab "10.0.0.1" 20 25 20)
         (GetHostByName "scanme.test"
          :: concat (segment lab "10.0.0.1" <$> batches 25 20)),
     Returns (25 - 20 + 1)).
Proof.
  apply named_host_scan.
  - split; [reflexivity|]. intros h p t. simpl. destruct (decide (p = 22)); reflexivity.
  - reflexivity.
  - lia.
  - reflexivity.
  - reflexivity.
Defined.
